(** * TaleCraft AI: the Gemini story generator

    A shallow embedding of [GeminiStoryGenerator]: the retry loop of
    [generateStory], the classification of retryable errors, and the
    scene parser with its fallback ladder ([parseStoryIntoScenes],
    [fallbackParseStory], [splitTextIntoChunks],
    [createEmergencyFallback], [generateStoryboardPrompt]).

    JavaScript strings are sequences of UTF-16 code units; a code unit
    is an [N] and a string a [list N].  Lengths and scene numbers are
    [nat]. *)

From Stdlib Require Import String Ascii DecimalString.
From Stdlib Require Import List NArith Arith Lia Bool Sorted.
Import ListNotations.

(** ** Strings *)

Definition jsstring := list N.

(** An ASCII literal as a JavaScript string. *)
Definition js (s : string) : jsstring :=
  map N_of_ascii (list_ascii_of_string s).
Arguments js s%_string.

(** Template interpolation of a non-negative integer: its decimal digits. *)
Definition numToString (n : nat) : jsstring :=
  js (NilEmpty.string_of_uint (Nat.to_uint n)).

Definition LF : N := 10%N.

(** WhiteSpace and LineTerminator of ECMAScript: what [trim] strips and
    what [\s] matches. *)
Definition isWhiteSpace (c : N) : bool :=
  ((9 <=? c) && (c <=? 13) || (c =? 32) || (c =? 160) || (c =? 5760)
   || (8192 <=? c) && (c <=? 8202) || (c =? 8232) || (c =? 8233)
   || (c =? 8239) || (c =? 8287) || (c =? 12288) || (c =? 65279))%N.

(** [\d] *)
Definition isDigit (c : N) : bool := ((48 <=? c) && (c <=? 57))%N.

(** [[.!?]] *)
Definition isSentenceEnd (c : N) : bool :=
  ((c =? 46) || (c =? 33) || (c =? 63))%N.

(** A letter of a pattern under the [i] flag (no [u] flag): the pattern
    gives the upper-case ASCII letter [u]; only [u] and its lower-case
    form canonicalize to it, since a code unit above 127 never
    canonicalizes to one below 128. *)
Definition ci (u : N) (c : N) : bool := ((c =? u) || (c =? u + 32))%N.

Fixpoint dropWhile (p : N -> bool) (s : jsstring) : jsstring :=
  match s with
  | c :: s' => if p c then dropWhile p s' else s
  | [] => []
  end.

Definition trimStart (s : jsstring) : jsstring := dropWhile isWhiteSpace s.
Definition trimEnd (s : jsstring) : jsstring :=
  rev (dropWhile isWhiteSpace (rev s)).

(** [String.prototype.trim] *)
Definition trim (s : jsstring) : jsstring := trimEnd (trimStart s).

(** [Array.prototype.join] on an array of strings *)
Fixpoint join (sep : jsstring) (l : list jsstring) : jsstring :=
  match l with
  | [] => []
  | [x] => x
  | x :: l' => x ++ sep ++ join sep l'
  end.

(** [s.split(d)] for a separator [d] of one code unit. *)
Fixpoint splitOn (d : N) (s : jsstring) : list jsstring :=
  match s with
  | [] => [[]]
  | c :: s' =>
      if (c =? d)%N then [] :: splitOn d s'
      else match splitOn d s' with
           | l :: ls => (c :: l) :: ls
           | [] => [[c]]
           end
  end.

Fixpoint startsWith (kw s : jsstring) : bool :=
  match kw, s with
  | [], _ => true
  | k :: kw', c :: s' => (k =? c)%N && startsWith kw' s'
  | _ :: _, [] => false
  end.

(** [s.includes(kw)] *)
Fixpoint includes (s kw : jsstring) : bool :=
  startsWith kw s ||
  match s with
  | [] => false
  | _ :: s' => includes s' kw
  end.

(** [s.substring(0, n)] *)
Definition substring0 (n : nat) (s : jsstring) : jsstring := firstn n s.

(** [arr.slice(a, b)] for [0 <= a] and [0 <= b] *)
Definition slice {A} (a b : nat) (l : list A) : list A :=
  firstn (b - a) (skipn a l).

(** [String.prototype.toLowerCase], one code unit at a time.  Upper-case
    ASCII letters go to lower case; U+0130 goes to [i] followed by
    U+0307 and U+212A (Kelvin sign) to [k]: these are the only code
    units above 127 whose lower-case form holds a code unit below 128.
    Every other code unit above 127 lower-cases to code units above 127
    and is left as it is: each use of [toLowerCase] in this program is
    followed by [includes] of an ASCII keyword, which those units cannot
    take part in. *)
Definition lowerUnit (c : N) : jsstring :=
  if ((65 <=? c) && (c <=? 90))%N then [(c + 32)%N]
  else if (c =? 304)%N then [105%N; 775%N]
  else if (c =? 8490)%N then [107%N]
  else [c].

Definition toLowerCase (s : jsstring) : jsstring := flat_map lowerUnit s.

(** ** Regular expressions

    The patterns of the program are sequences of single classes and
    greedy repetitions of a class.  [re_match r s] is the backtracking
    match of [r] at the start of [s]; it returns what follows the
    match. *)

Inductive atom : Type :=
| One (p : N -> bool)
| Many1 (p : N -> bool)
| Many0 (p : N -> bool).

(** Greedy repetition: the longest run first, one unit given back at a
    time while the continuation [k] fails. *)
Fixpoint greedy (p : N -> bool) (k : jsstring -> option jsstring)
  (s : jsstring) : option jsstring :=
  match s with
  | c :: s' =>
      if p c then
        match greedy p k s' with
        | Some t => Some t
        | None => k s
        end
      else k s
  | [] => k s
  end.

Fixpoint re_match (r : list atom) : jsstring -> option jsstring :=
  match r with
  | [] => fun s => Some s
  | One p :: r' => fun s =>
      match s with
      | c :: s' => if p c then re_match r' s' else None
      | [] => None
      end
  | Many1 p :: r' => fun s =>
      match s with
      | c :: s' => if p c then greedy p (re_match r') s' else None
      | [] => None
      end
  | Many0 p :: r' => greedy p (re_match r')
  end.

Definition sceneWord : list atom :=
  [One (ci 83); One (ci 67); One (ci 69); One (ci 78); One (ci 69)].

(** [/SCENE\s+\d+:/gi] *)
Definition markerRe : list atom :=
  sceneWord ++ [Many1 isWhiteSpace; Many1 isDigit; One (N.eqb 58)].

(** [/^SCENE\s+\d+/i]; [/^Scene\s+\d+/i] is the same pattern under [i]. *)
Definition headerRe : list atom :=
  sceneWord ++ [Many1 isWhiteSpace; Many1 isDigit].

(** [/^SCENE\s+\d+:\s*/i]; again [/^Scene\s+\d+:\s*/i] is the same. *)
Definition headerPrefixRe : list atom :=
  markerRe ++ [Many0 isWhiteSpace].

(** [/[.!?]+/] *)
Definition sentenceEndRe : list atom := [Many1 isSentenceEnd].

(** The first match of [r] in [s], scanning left to right: the text
    before it and the text after it.  A match that consumes nothing is
    passed over (none of the patterns above has one). *)
Fixpoint find_sep (r : list atom) (s : jsstring)
  : option (jsstring * jsstring) :=
  match s with
  | [] => None
  | c :: s' =>
      match re_match r s with
      | Some rest =>
          if length rest <? length s then Some ([], rest)
          else match find_sep r s' with
               | Some (b, a) => Some (c :: b, a)
               | None => None
               end
      | None =>
          match find_sep r s' with
          | Some (b, a) => Some (c :: b, a)
          | None => None
          end
      end
  end.

Fixpoint split_fuel (r : list atom) (fuel : nat) (s : jsstring)
  : list jsstring :=
  match fuel with
  | O => [s]
  | S fuel' =>
      match find_sep r s with
      | None => [s]
      | Some (b, a) => b :: split_fuel r fuel' a
      end
  end.

(** [s.split(r)]: each separator consumes at least one unit, so
    [length s] rounds are enough. *)
Definition split (r : list atom) (s : jsstring) : list jsstring :=
  split_fuel r (length s) s.


(** [s.replace(r, '')] for an anchored pattern [r] without the [g] flag *)
Definition stripPrefix (r : list atom) (s : jsstring) : jsstring :=
  match re_match r s with
  | Some rest => rest
  | None => s
  end.

(** [s.match(r)] for an anchored pattern, as a truth value *)
Definition matches (r : list atom) (s : jsstring) : bool :=
  match re_match r s with
  | Some _ => true
  | None => false
  end.

(** [a || b] on strings: the empty string is falsy. *)
Definition orElse (a b : jsstring) : jsstring :=
  match a with
  | [] => b
  | _ => a
  end.

(** ** Errors *)

Inductive JsError : Type :=
| TypeError (msg : jsstring)
| Error (msg : jsstring).

(** [error.message] *)
Definition message (e : JsError) : jsstring :=
  match e with
  | TypeError m => m
  | Error m => m
  end.

Inductive result (A : Type) : Type :=
| Ok (a : A)
| Throw (e : JsError).
Arguments Ok {A} a.
Arguments Throw {A} e.

Definition bind {A B} (m : result A) (f : A -> result B) : result B :=
  match m with
  | Ok a => f a
  | Throw e => Throw e
  end.

Notation "x <- m ;; k" := (bind m (fun x => k))
  (at level 61, m at next level, right associativity).

(** [arr[i]] followed by a method call: [undefined] has no methods. *)
Definition index {A} (l : list A) (i : nat) : result A :=
  match nth_error l i with
  | Some a => Ok a
  | None => Throw (TypeError (js "Cannot read properties of undefined"))
  end.

(** ** Data model *)

Record CharacterDNA : Type := {
  name : jsstring;
  traits : option (list jsstring);
  charDescription : option jsstring
}.

(** A scene object.  [description] is [None] when the object has no
    such property. *)
Record Scene : Type := {
  sceneId : jsstring;
  number : nat;
  title : jsstring;
  content : jsstring;
  description : option jsstring;
  characterName : jsstring;
  storyboardPrompt : jsstring
}.

(** A story object.  The two flags are [false] when the property is
    absent. *)
Record Story : Type := {
  storyTitle : jsstring;
  scenes : list Scene;
  totalScenes : nat;
  character : CharacterDNA;
  emergencyFallback : bool;
  fallbackParsed : bool
}.

Record Metadata : Type := {
  genre : jsstring;
  metaCharacter : jsstring;
  estimatedReadTime : nat;
  sceneCount : nat;
  generatedBy : jsstring;
  attempt : nat
}.

Record GenerationResult : Type := {
  success : bool;
  story : Story;
  rawText : jsstring;
  metadata : Metadata
}.

(** ** generateStoryboardPrompt *)

(** An [if / else if] chain over [contentWords.includes]: the label of
    the first rule one of whose keywords occurs, else the default. *)
Fixpoint classify (rules : list (list jsstring * jsstring))
  (default : jsstring) (contentWords : jsstring) : jsstring :=
  match rules with
  | [] => default
  | (kws, label) :: rules' =>
      if existsb (includes contentWords) kws then label
      else classify rules' default contentWords
  end.

Definition settingRules : list (list jsstring * jsstring) :=
  [ ([js "library"; js "book"], js "ancient library with books and shelves");
    ([js "forest"; js "tree"], js "mystical forest");
    ([js "cave"; js "underground"], js "mysterious cave");
    ([js "castle"; js "tower"], js "medieval castle");
    ([js "city"; js "street"], js "bustling city street");
    ([js "mountain"; js "peak"], js "mountain landscape");
    ([js "ocean"; js "sea"], js "coastal scene with ocean") ].

Definition actionRules : list (list jsstring * jsstring) :=
  [ ([js "running"; js "chase"], js "running or chasing");
    ([js "fighting"; js "battle"], js "in combat stance");
    ([js "searching"; js "looking"], js "searching and investigating");
    ([js "climbing"; js "ascending"], js "climbing");
    ([js "flying"; js "soaring"], js "flying through the air");
    ([js "discovering"; js "found"], js "making a discovery");
    ([js "hiding"; js "sneaking"], js "hiding or sneaking") ].

Definition moodRules : list (list jsstring * jsstring) :=
  [ ([js "scared"; js "afraid"; js "terrified"], js "scared or worried");
    ([js "happy"; js "excited"; js "joy"], js "happy and excited");
    ([js "angry"; js "furious"; js "mad"], js "angry or determined");
    ([js "surprised"; js "shocked"; js "amazed"], js "surprised and amazed");
    ([js "sad"; js "crying"; js "upset"], js "sad or emotional");
    ([js "curious"; js "wonder"; js "investigate"], js "curious and focused") ].

(** The lines of the template literal: each line break of the source
    is followed by four spaces of indentation. *)
Definition templateLines (ls : list jsstring) : jsstring :=
  join (LF :: js "    ") ls.

Definition generateStoryboardPrompt (sceneTitle sceneContent : jsstring)
  (characterDNA : CharacterDNA) : jsstring :=
  let characterName := orElse (name characterDNA) (js "character") in
  let characterTraits :=
    match traits characterDNA with
    | Some ts => orElse (join (js ", ") (slice 0 2 ts)) (js "adventurous")
    | None => js "adventurous"
    end in
  let contentWords := toLowerCase sceneContent in
  let setting := classify settingRules (js "indoor scene") contentWords in
  let action := classify actionRules (js "standing") contentWords in
  let mood := classify moodRules (js "neutral") contentWords in
  templateLines
    [ js "Create a detailed storyboard panel for: " ++ sceneTitle;
      js "";
      js "Main character: " ++ characterName ++ js " (" ++ characterTraits
        ++ js ")";
      js "Setting: " ++ setting;
      js "Action: " ++ characterName ++ js " is " ++ action;
      js "Mood/Expression: " ++ mood;
      js "";
      js "Visual style: Clean storyboard illustration, cinematic composition, clear character poses, detailed background elements, professional animation reference quality. Character should be the main focus with supporting environmental details.";
      js "";
      js "Camera angle: Medium shot showing character and environment";
      js "Lighting: Dramatic and appropriate for the scene mood";
      js "";
      js "Based on story content: " ++ substring0 150 sceneContent
        ++ js "..." ].

(** ** The scene parser *)

Definition adventureTitle (characterDNA : CharacterDNA) : jsstring :=
  name characterDNA ++ js "'s Adventure".

(** The scene object pushed by the primary strategy and by the chunk
    split. *)
Definition parsedScene (n : nat) (t c : jsstring)
  (characterDNA : CharacterDNA) : Scene :=
  {| sceneId := js "scene_" ++ numToString n;
     number := n;
     title := t;
     content := c;
     description := Some c;
     characterName := name characterDNA;
     storyboardPrompt := generateStoryboardPrompt t c characterDNA |}.

Definition continuationContent (characterDNA : CharacterDNA) : jsstring :=
  name characterDNA
  ++ js " continues their adventure with determination and courage.".

(** The scene object pushed by the padding loop: it is built without a
    [description] property. *)
Definition paddingScene (n : nat) (characterDNA : CharacterDNA) : Scene :=
  {| sceneId := js "scene_" ++ numToString n;
     number := n;
     title := js "Scene " ++ numToString n;
     content := continuationContent characterDNA;
     description := None;
     characterName := name characterDNA;
     storyboardPrompt :=
       generateStoryboardPrompt (js "Scene " ++ numToString n)
         (continuationContent characterDNA) characterDNA |}.

Definition createEmergencyFallback (characterDNA : CharacterDNA)
  (storyText : jsstring) : Story :=
  let fallbackContent :=
    orElse storyText
      (name characterDNA ++
       js " embarks on an exciting adventure filled with challenges and discoveries.") in
  {| storyTitle := adventureTitle characterDNA;
     scenes :=
       [ {| sceneId := js "scene_1";
            number := 1;
            title := js "The Adventure Begins";
            content := fallbackContent;
            description := Some fallbackContent;
            characterName := name characterDNA;
            storyboardPrompt :=
              name characterDNA ++ js " begins an exciting adventure" |} ];
     totalScenes := 1;
     character := characterDNA;
     emergencyFallback := true;
     fallbackParsed := false |}.

(** [text.split(/[.!?]+/).filter(s => s.trim().length > 0)] *)
Definition sentencesOf (text : jsstring) : list jsstring :=
  filter (fun s => 0 <? length (trim s)) (split sentenceEndRe text).

(** [Math.ceil(n / k)] for [k > 0] *)
Definition ceilDiv (n k : nat) : nat := (n + (k - 1)) / k.

(** One round of the loop of [splitTextIntoChunks]: the chunk pushed
    for index [i], if any. *)
Definition chunkAt (sentences : list jsstring) (chunkSize i : nat)
  : list jsstring :=
  let start := i * chunkSize in
  let end_ := Nat.min (start + chunkSize) (length sentences) in
  let chunk := trim (join (js ". ") (slice start end_ sentences)) in
  if 0 <? length chunk then [chunk ++ js "."] else [].

Definition splitTextIntoChunks (text : jsstring) (numChunks : nat)
  : list jsstring :=
  let sentences := sentencesOf text in
  let chunkSize := ceilDiv (length sentences) numChunks in
  flat_map (chunkAt sentences chunkSize) (seq 0 numChunks).

(** The state of the line scan of [fallbackParseStory]. *)
Record ScanState : Type := {
  found : list Scene;
  currentScene : option Scene;
  scanCount : nat
}.

(** [if (currentScene && currentScene.content.trim().length > 0)
    scenes.push(currentScene)] *)
Definition flushScene (found : list Scene) (cur : option Scene)
  : list Scene :=
  match cur with
  | Some s => if 0 <? length (trim (content s)) then found ++ [s] else found
  | None => found
  end.

Definition appendContent (s : Scene) (trimmedLine : jsstring) : Scene :=
  {| sceneId := sceneId s;
     number := number s;
     title := title s;
     content :=
       content s ++ (match content s with [] => js "" | _ => js " " end)
       ++ trimmedLine;
     description := description s;
     characterName := characterName s;
     storyboardPrompt := storyboardPrompt s |}.

Definition scanLine (characterDNA : CharacterDNA) (st : ScanState)
  (line : jsstring) : ScanState :=
  let trimmedLine := trim line in
  if matches headerRe trimmedLine || matches headerRe trimmedLine then
    let sceneCount' := scanCount st + 1 in
    let t :=
      orElse (stripPrefix headerPrefixRe (stripPrefix headerPrefixRe trimmedLine))
        (js "Scene " ++ numToString sceneCount') in
    {| found := flushScene (found st) (currentScene st);
       currentScene :=
         Some {| sceneId := js "scene_" ++ numToString sceneCount';
                 number := sceneCount';
                 title := t;
                 content := js "";
                 description := Some (js "");
                 characterName := name characterDNA;
                 storyboardPrompt := js "" |};
       scanCount := sceneCount' |}
  else
    match currentScene st with
    | Some s =>
        if 0 <? length trimmedLine then
          {| found := found st;
             currentScene := Some (appendContent s trimmedLine);
             scanCount := scanCount st |}
        else st
    | None => st
    end.

(** [scenes.forEach(scene => { scene.description = scene.content; ... })] *)
Definition refreshScene (characterDNA : CharacterDNA) (s : Scene) : Scene :=
  {| sceneId := sceneId s;
     number := number s;
     title := title s;
     content := content s;
     description := Some (content s);
     characterName := characterName s;
     storyboardPrompt :=
       generateStoryboardPrompt (title s) (content s) characterDNA |}.

(** The scenes of the equal-chunk split: [scene_<i+1>] for chunk [i]. *)
Definition chunkScenes (characterDNA : CharacterDNA)
  (textChunks : list jsstring) : list Scene :=
  map (fun ic : nat * jsstring =>
         parsedScene (fst ic + 1) (js "Scene " ++ numToString (fst ic + 1))
           (snd ic) characterDNA)
      (combine (seq 0 (length textChunks)) textChunks).

Definition fallbackParseStory (storyText : jsstring)
  (characterDNA : CharacterDNA) : Story :=
  let lines :=
    filter (fun line => 0 <? length (trim line)) (splitOn LF storyText) in
  let st :=
    fold_left (scanLine characterDNA) lines
      {| found := []; currentScene := None; scanCount := 0 |} in
  let scanned := flushScene (found st) (currentScene st) in
  let scenes1 :=
    if length scanned =? 0
    then chunkScenes characterDNA (splitTextIntoChunks storyText 4)
    else scanned in
  let scenes2 := map (refreshScene characterDNA) scenes1 in
  {| storyTitle := adventureTitle characterDNA;
     scenes := slice 0 4 scenes2;
     totalScenes := Nat.min (length scenes2) 4;
     character := characterDNA;
     emergencyFallback := false;
     fallbackParsed := true |}.

(** The body of the primary loop for one part: the title and content
    it extracts, if both are non-empty. *)
Definition extractScene (rawPart : jsstring)
  : result (option (jsstring * jsstring)) :=
  let part := trim rawPart in
  if length part =? 0 then Ok None
  else
    let lines := splitOn LF part in
    l0 <- index lines 0 ;;
    let t := trim l0 in
    let c := trim (join [LF] (skipn 1 lines)) in
    if (0 <? length t) && (0 <? length c) then Ok (Some (t, c)) else Ok None.

(** [for (i = startIndex; i < sceneParts.length && scenes.length < 4; i++)]
    over the parts from [startIndex] on. *)
Fixpoint primaryLoop (characterDNA : CharacterDNA) (parts : list jsstring)
  (scenes : list Scene) : result (list Scene) :=
  match parts with
  | [] => Ok scenes
  | p :: parts' =>
      if length scenes <? 4 then
        x <- extractScene p ;;
        match x with
        | Some (t, c) =>
            primaryLoop characterDNA parts'
              (scenes ++ [parsedScene (length scenes + 1) t c characterDNA])
        | None => primaryLoop characterDNA parts' scenes
        end
      else Ok scenes
  end.

(** The primary strategy up to the end of its loop. *)
Definition primaryScenes (storyText : jsstring)
  (characterDNA : CharacterDNA) : result (list Scene) :=
  let sceneParts := split markerRe storyText in
  p0 <- index sceneParts 0 ;;
  let startIndex := if length (trim p0) =? 0 then 1 else 0 in
  primaryLoop characterDNA (skipn startIndex sceneParts) [].

(** [while (scenes.length < 4) scenes.push(...)]; four rounds are
    enough. *)
Fixpoint padLoop (fuel : nat) (characterDNA : CharacterDNA)
  (scenes : list Scene) : list Scene :=
  match fuel with
  | O => scenes
  | S fuel' =>
      if length scenes <? 4 then
        padLoop fuel' characterDNA
          (scenes ++ [paddingScene (length scenes + 1) characterDNA])
      else scenes
  end.

(** "Ensure exactly 4 scenes" *)
Definition normalizeScenes (characterDNA : CharacterDNA)
  (scenes : list Scene) : list Scene :=
  if 4 <? length scenes then firstn 4 scenes
  else if length scenes <? 4 then padLoop 4 characterDNA scenes
  else scenes.

(** The [try] block either returns the story of the fallback strategy
    or leaves the parsed scenes; the [catch] block returns the story of
    the fallback strategy. *)
Definition parseStoryIntoScenes (storyText : jsstring)
  (characterDNA : CharacterDNA) : result Story :=
  if (length storyText =? 0) || (length storyText <? 50) then
    Ok (createEmergencyFallback characterDNA storyText)
  else
    let tried :=
      scenes <- primaryScenes storyText characterDNA ;;
      if length scenes =? 0
      then Ok (inl (fallbackParseStory storyText characterDNA))
      else Ok (inr scenes) in
    match tried with
    | Throw _ => Ok (fallbackParseStory storyText characterDNA)
    | Ok (inl st) => Ok st
    | Ok (inr scenes) =>
        Ok {| storyTitle := adventureTitle characterDNA;
              scenes := normalizeScenes characterDNA scenes;
              totalScenes := 4;
              character := characterDNA;
              emergencyFallback := false;
              fallbackParsed := false |}
    end.

(** ** The retry loop *)

Definition retryableMessages : list jsstring :=
  [ js "overloaded"; js "service unavailable"; js "503";
    js "temporarily unavailable"; js "rate limit"; js "quota exceeded";
    js "timed out"; js "timeout" ].

Definition isRetryableError (error : JsError) : bool :=
  let errorMessage := toLowerCase (message error) in
  existsb (fun m => includes errorMessage m) retryableMessages.

(** What one call of the model client does within the request timeout:
    it answers with a text, it fails with a message (this covers a
    failure of [result.response] or [response.text()]), or it is still
    pending when the timer fires. *)
Inductive Outcome : Type :=
| Responds (text : jsstring)
| Rejects (msg : jsstring)
| Pending.

(** The model client: the outcome of its [n]-th call, counted from 0.
    Each attempt calls it with the text of [buildStoryPrompt], which is
    the same at every attempt. *)
Definition Client := nat -> Outcome.

(** What the retry loop does to the outside: calls of the model client
    and the delays it waits, in milliseconds. *)
Record World : Type := {
  calls : nat;
  delays : list N
}.

Definition maxRetries : nat := 3.
Definition retryDelay : N := 2000.
Definition requestTimeout : N := 45000.

(** [await Promise.race([generationPromise, timeoutPromise])] followed
    by the extraction of the text. *)
Definition raceWithTimeout (o : Outcome) : result jsstring :=
  match o with
  | Responds text => Ok text
  | Rejects m => Throw (Error m)
  | Pending =>
      Throw (Error (js "Gemini API request timed out after "
                    ++ numToString (N.to_nat (requestTimeout / 1000))
                    ++ js " seconds"))
  end.

(** The story built in the [catch (parseError)] block of
    [generateStory]. *)
Definition inlineEmergencyStory (characterDNA : CharacterDNA)
  (storyText : jsstring) : Story :=
  let excerpt :=
    substring0 (Nat.min 500 (length storyText)) storyText ++ js "..." in
  {| storyTitle := adventureTitle characterDNA;
     scenes :=
       [ {| sceneId := js "scene_1";
            number := 1;
            title := js "The Adventure Begins";
            content := excerpt;
            description := Some excerpt;
            characterName := name characterDNA;
            storyboardPrompt :=
              name characterDNA ++ js " begins an adventure, "
              ++ substring0 100 storyText |} ];
     totalScenes := 1;
     character := characterDNA;
     emergencyFallback := true;
     fallbackParsed := false |}.

Definition successResult (genre_ : jsstring) (characterDNA : CharacterDNA)
  (storyText : jsstring) (parsedStory : Story) (attempt_ : nat)
  : GenerationResult :=
  {| success := true;
     story := parsedStory;
     rawText := storyText;
     metadata :=
       {| genre := genre_;
          metaCharacter := name characterDNA;
          estimatedReadTime := ceilDiv (length storyText) 1000;
          sceneCount := length (scenes parsedStory);
          generatedBy := js "gemini-2.0-flash";
          attempt := attempt_ |} |}.

Definition terminalError (attempt_ : nat) (error : JsError) : JsError :=
  Error (js "Story generation failed after " ++ numToString attempt_
         ++ js " attempts: " ++ message error).

(** The [for] loop of [generateStory] from attempt [attempt_] on, with
    [fuel] rounds left.  [Ok None] is the loop running to its end
    without a [return].  The ten-second timer set before parsing only
    throws when parsing has not completed; parsing is synchronous and
    has completed (or thrown into the inner [catch]) before any timer
    can run, so the timer has no part in the result. *)
Fixpoint attemptLoop (client : Client) (genre_ : jsstring)
  (characterDNA : CharacterDNA) (fuel attempt_ : nat) (w : World)
  : result (option GenerationResult) * World :=
  match fuel with
  | O => (Ok None, w)
  | S fuel' =>
      let w1 := {| calls := calls w + 1; delays := delays w |} in
      match raceWithTimeout (client (calls w)) with
      | Ok storyText =>
          let parsedStory :=
            match parseStoryIntoScenes storyText characterDNA with
            | Ok st => st
            | Throw _ => inlineEmergencyStory characterDNA storyText
            end in
          (Ok (Some (successResult genre_ characterDNA storyText parsedStory
                       attempt_)), w1)
      | Throw error =>
          if (attempt_ =? maxRetries) || negb (isRetryableError error) then
            (Throw (terminalError attempt_ error), w1)
          else
            attemptLoop client genre_ characterDNA fuel' (attempt_ + 1)
              {| calls := calls w1; delays := delays w1 ++ [retryDelay] |}
      end
  end.

Definition generateStory (client : Client) (genre_ : jsstring)
  (characterDNA : CharacterDNA) (w : World)
  : result (option GenerationResult) * World :=
  attemptLoop client genre_ characterDNA maxRetries 1 w.

(** [kw] occurs in [s] as a contiguous run of code units. *)
Definition occursIn (kw s : jsstring) : Prop := exists a b, s = a ++ kw ++ b.

(** ** Marked texts

    What the claims call a scene marker and a well-marked scene, stated
    on the text itself. *)

Definition blank (s : jsstring) : Prop :=
  Forall (fun c => isWhiteSpace c = true) s.

(** [m] reads SCENE (in any case), white space, digits, a colon. *)
Definition isMarker (m : jsstring) : Prop :=
  exists c1 c2 c3 c4 c5 ws ds,
    m = [c1; c2; c3; c4; c5] ++ ws ++ ds ++ [58%N]
    /\ ci 83 c1 = true /\ ci 67 c2 = true /\ ci 69 c3 = true
    /\ ci 78 c4 = true /\ ci 69 c5 = true
    /\ ws <> [] /\ forallb isWhiteSpace ws = true
    /\ ds <> [] /\ forallb isDigit ds = true.

(** No marker occurs inside [s]. *)
Definition markerFree (s : jsstring) : Prop :=
  forall a m b, s = a ++ m ++ b -> ~ isMarker m.

(** The same, as a test: no position of [s] starts a match. *)
Fixpoint markerFreeb (s : jsstring) : bool :=
  match s with
  | [] => true
  | _ :: s' => negb (matches markerRe s) && markerFreeb s'
  end.

(** A marked scene of a model text: its marker, the rest of the marker
    line, and the lines after it up to the next marker. *)
Record MarkedScene : Type := {
  marker : jsstring;
  titleLine : jsstring;
  body : jsstring
}.

Definition sceneText (ms : MarkedScene) : jsstring :=
  marker ms ++ titleLine ms ++ [LF] ++ body ms.

(** A marker followed by a non-empty title line and a non-empty body. *)
Definition wellMarked (ms : MarkedScene) : Prop :=
  isMarker (marker ms)
  /\ ~ In LF (titleLine ms)
  /\ trim (titleLine ms) <> []
  /\ trim (body ms) <> []
  /\ markerFree (titleLine ms ++ [LF] ++ body ms).

(** The text made of a preamble and four marked scenes. *)
Definition fourSceneText (pre : jsstring) (s1 s2 s3 s4 : MarkedScene)
  : jsstring :=
  pre ++ sceneText s1 ++ sceneText s2 ++ sceneText s3 ++ sceneText s4.

(** The scene that the primary strategy builds from a marked scene. *)
Definition sceneOf (n : nat) (ms : MarkedScene)
  (characterDNA : CharacterDNA) : Scene :=
  parsedScene n (trim (titleLine ms)) (trim (body ms)) characterDNA.

(** The scene ids follow the scene numbers. *)
Definition idsFollowNumbers (l : list Scene) : Prop :=
  Forall (fun sc => sceneId sc = js "scene_" ++ numToString (number sc)) l.

(** All the segments between markers that give a title and a content,
    in order, without the bound of four. *)
Definition segmentOf (p : jsstring) : list (jsstring * jsstring) :=
  match extractScene p with
  | Ok (Some tc) => [tc]
  | _ => []
  end.

Definition usableSegments (storyText : jsstring)
  : list (jsstring * jsstring) :=
  flat_map segmentOf (split markerRe storyText).

(** All the scenes that the fallback strategy finds, without the bound
    of four: the array [scenes] of [fallbackParseStory] when its
    [forEach] is over, before [slice(0, 4)]. *)
Definition fallbackScenes (storyText : jsstring)
  (characterDNA : CharacterDNA) : list Scene :=
  let lines :=
    filter (fun line => 0 <? length (trim line)) (splitOn LF storyText) in
  let st :=
    fold_left (scanLine characterDNA) lines
      {| found := []; currentScene := None; scanCount := 0 |} in
  let scanned := flushScene (found st) (currentScene st) in
  map (refreshScene characterDNA)
    (if length scanned =? 0
     then chunkScenes characterDNA (splitTextIntoChunks storyText 4)
     else scanned).

(** The continuation scenes numbered from [k] up to 4. *)
Definition continuationScenes (characterDNA : CharacterDNA) (k : nat)
  : list Scene :=
  map (fun n => paddingScene n characterDNA) (seq k (5 - k)).

(** Scenes numbered from [k] on for a list of titles and contents. *)
Fixpoint numberScenes (characterDNA : CharacterDNA) (k : nat)
  (segs : list (jsstring * jsstring)) : list Scene :=
  match segs with
  | [] => []
  | (t, c) :: segs' =>
      parsedScene k t c characterDNA :: numberScenes characterDNA (S k) segs'
  end.

(** A line that is not blank: the test of the filter in
    [fallbackParseStory]. *)
Definition solidLine (line : jsstring) : bool := 0 <? length (trim line).

(** The sentences that round [i] of [splitTextIntoChunks] takes. *)
Definition chunkGroup (sentences : list jsstring) (chunkSize i : nat)
  : list jsstring :=
  slice (i * chunkSize)
    (Nat.min (i * chunkSize + chunkSize) (length sentences)) sentences.

(** The text of a chunk made of the sentences [g]. *)
Definition chunkText (g : list jsstring) : jsstring :=
  trim (join (js ". ") g) ++ js ".".

Definition nonEmpty {A} (l : list A) : bool :=
  match l with
  | [] => false
  | _ => true
  end.

(** The scene numbers are positive and strictly increasing. *)
Definition numbersIncrease (l : list Scene) : Prop :=
  StronglySorted lt (0 :: map number l).

(** What the line scan of the fallback strategy keeps true. *)
Definition scanInvariant (st : ScanState) : Prop :=
  idsFollowNumbers (found st)
  /\ numbersIncrease (found st)
  /\ match currentScene st with
     | Some s =>
         sceneId s = js "scene_" ++ numToString (number s)
         /\ number s = scanCount st
         /\ 0 < scanCount st
         /\ Forall (fun sc => number sc < scanCount st) (found st)
     | None => found st = []
     end.

(** ** Sample inputs *)

Definition mia : CharacterDNA :=
  {| name := js "Mia";
     traits := Some [js "brave"; js "kind"];
     charDescription := None |}.

Definition freshWorld : World := {| calls := 0; delays := [] |}.

(** One marked scene: the primary strategy finds it and pads. *)
Definition oneSceneText : jsstring :=
  js "SCENE 1: The Start" ++ [LF]
  ++ js "Once upon a time there was a hero who went far away.".

(** Fifty full stops: no sentence at all. *)
Definition fiftyDots : jsstring := repeat 46%N 50.

(** One marker and no line break. *)
Definition oneLineMarked : jsstring :=
  js "SCENE 1: only a title and nothing else follows on this single line".

(** Six markers, each alone on its line and followed by a body of one
    line: no segment between markers has both a title and a content. *)
Definition sixBareScenes : jsstring :=
  flat_map (fun n : N =>
              js "SCENE " ++ [(48 + n)%N; 58%N; LF]
              ++ js "Body of part " ++ [(48 + n)%N; 46%N; LF])
    [1; 2; 3; 4; 5; 6]%N.

(** Two lines without any marker. *)
Definition twoPlainLines : jsstring :=
  js "First line of the story goes here" ++ [LF]
  ++ js "Second line of the story goes here".

(** Several sentences on one line, without any marker. *)
Definition plainParagraph : jsstring :=
  js "Mia woke up early. She packed a bag! Was the map real? It was. She left at dawn".

(** Four marked scenes in 47 code units. *)
Definition tinyFourScenes : jsstring :=
  js "SCENE 1:a" ++ [LF] ++ js "b SCENE 2:a" ++ [LF] ++ js "b SCENE 3:a"
  ++ [LF] ++ js "b SCENE 4:a" ++ [LF] ++ js "b".

(** A model answer in the requested format: a preamble line and four
    marked scenes. *)
Definition storyScene (n : N) : MarkedScene :=
  {| marker := js "SCENE " ++ [(48 + n)%N; 58%N];
     titleLine := js " The Part";
     body := js "Something happens to Mia here. She goes on." ++ [LF; LF] |}.


(** A client that is rate limited twice and then answers. *)
Definition limitedTwice : Client :=
  fun n =>
    match n with
    | 0 | 1 => Rejects (js "429: Rate Limit reached, rate limit applies")
    | _ => Responds oneSceneText
    end.

Definition badKey : Client := fun _ => Rejects (js "invalid api key").

(** A client whose answer is too short to be parsed. *)
Definition shortAnswer : Client := fun _ => Responds (js "Too short").

Definition shortAnswerResult : GenerationResult :=
  successResult (js "fantasy") mia (js "Too short")
    (createEmergencyFallback mia (js "Too short")) 1.


(** ** buildStoryPrompt *)

(** The tones and lengths that the options carry: the ids of the
    tables [TONES] and [LENGTHS] of the client form.  Each is a key of
    the guidance table that [buildStoryPrompt] looks it up in. *)
Inductive Tone : Type :=
| lighthearted | serious | humorous | dramatic | mysterious | romantic.

Inductive Length : Type :=
| short | medium | long.

(** The options object.  [None] is a property that is absent (for the
    tone and the length also the empty string of the untouched form:
    both are falsy). *)
Record GenerationOptions : Type := {
  tone : option Tone;
  length_ : option Length;
  includeVoice : option bool;
  includeVideo : option bool
}.

Definition toneName (t : Tone) : jsstring :=
  match t with
  | lighthearted => js "lighthearted"
  | serious => js "serious"
  | humorous => js "humorous"
  | dramatic => js "dramatic"
  | mysterious => js "mysterious"
  | romantic => js "romantic"
  end.

Definition lengthName (l : Length) : jsstring :=
  match l with
  | short => js "short"
  | medium => js "medium"
  | long => js "long"
  end.

Definition toneGuidance (t : Tone) : jsstring :=
  match t with
  | lighthearted => js "Keep it fun and upbeat"
  | serious => js "Make it thoughtful and meaningful"
  | humorous => js "Add comedy and funny moments"
  | dramatic => js "Include emotional depth and tension"
  | mysterious => js "Add suspense and intrigue"
  | romantic => js "Include heartwarming moments"
  end.

Definition lengthGuidance (l : Length) : jsstring :=
  match l with
  | short => js "Simple and focused story progression"
  | medium => js "Well-developed story with clear progression"
  | long => js "Rich story with detailed character development"
  end.

(** [toUpperCase] on the name of a tone, which is made of lower-case
    ASCII letters. *)
Definition toneUpperCase (t : Tone) : jsstring :=
  map (fun c => if ((97 <=? c) && (c <=? 122))%N then (c - 32)%N else c)
      (toneName t).

(** [tone === 'humorous' ? a : tone === 'dramatic' ? b :
    tone === 'mysterious' ? c : d] *)
Definition byTone (t : Tone) (a b c d : jsstring) : jsstring :=
  match t with
  | humorous => a
  | dramatic => b
  | mysterious => c
  | _ => d
  end.

(** [tone === 'humorous' ? a : d] *)
Definition whenHumorous (t : Tone) (a d : jsstring) : jsstring :=
  match t with
  | humorous => a
  | _ => d
  end.

(** [flag !== false] *)
Definition unlessFalse (flag : option bool) : bool :=
  match flag with
  | Some false => false
  | _ => true
  end.

(** The lines of the template of [buildStoryPrompt], in three parts:
    up to the line that announces the example, the example story, and
    what follows it. *)
Definition promptIntroLines (prompt genre_ characterName characterDescription
  characterTraits : jsstring) (tone : Tone) (length_ : Length)
  (includeVoice includeVideo : bool)
  : list jsstring :=
    [
      js "You are a professional story creator. Create an engaging story with EXACTLY 4 scenes.";
      js "";
      js "CHARACTER: " ++ characterName;
      js "CHARACTER DESCRIPTION: " ++ characterDescription;
      js "TRAITS: " ++ characterTraits;
      js "STORY PROMPT: " ++ prompt;
      js "GENRE: " ++ genre_;
      js "TONE: " ++ toneName tone ++ js " - " ++ toneGuidance tone;
      js "LENGTH: " ++ lengthName length_ ++ js " - " ++ lengthGuidance length_;
      js "VOICE NARRATION: " ++ (if includeVoice then (js "Yes - Include narrative elements") else (js "No - Focus on visual action only"));
      js "VIDEO GENERATION: " ++ (if includeVideo then (js "Yes - Optimize for visual storytelling") else (js "No - Text-focused"));
      js "";
      js "CRITICAL REQUIREMENT: Create EXACTLY 4 scenes - NO MORE, NO LESS";
      js "";
      js "MANDATORY FORMAT - DO NOT DEVIATE:";
      js "";
      js "SCENE 1: [Engaging scene title]";
      js "[2-3 sentences of engaging story content that readers will enjoy. Make it narrative, descriptive, and " ++ toneName tone ++ js ". Focus on character emotions, dialogue, and story progression rather than just visual descriptions.]";
      js "";
      js "SCENE 2: [Engaging scene title]";
      js "[2-3 sentences of engaging story content that readers will enjoy. Continue the narrative naturally from Scene 1. Include character development and " ++ toneName tone ++ js " elements.]";
      js "";
      js "SCENE 3: [Engaging scene title]";
      js "[2-3 sentences of engaging story content that readers will enjoy. Build tension or develop the plot further. Maintain the " ++ toneName tone ++ js " throughout.]";
      js "";
      js "SCENE 4: [Engaging scene title]";
      js "[2-3 sentences of engaging story content that readers will enjoy. Provide a satisfying conclusion that matches the " ++ toneName tone ++ js " and resolves the story.]";
      js "";
      js "REQUIREMENTS:";
      js "- EXACTLY 4 scenes only";
      js "- Each scene must start with " ++ [34%N] ++ js "SCENE X:" ++ [34%N];
      js "- Write 2-3 engaging sentences per scene that tell a story";
      js "- Focus on narrative, dialogue, emotions, and character development";
      js "- Match the " ++ toneName tone ++ js " tone throughout";
      js "- Make it readable and enjoyable for humans";
      js "- Consider " ++ characterName ++ js "'s traits: " ++ characterTraits;
      js "- Use the character description: " ++ characterDescription;
      js "- Appropriate for " ++ genre_ ++ js " genre and " ++ lengthName length_ ++ js " length";
      js "- NO additional scenes beyond 4";
      (if includeVoice then (js "- Include narrative elements suitable for voice-over") else (js ""));
      (if includeVideo then (js "- Ensure each scene is visually compelling for video") else (js ""));
      js "";
      js "EXAMPLE FOR " ++ toneUpperCase tone ++ js " TONE:"
    ].

Definition exampleStoryLines (tone : Tone) (characterName : jsstring)
  : list jsstring :=
    [
      js "SCENE 1: The Mysterious Discovery";
      characterName ++ js " was exploring the old library when they noticed a strange glow coming from behind the dusty shelves. " ++ (byTone tone
         (js "With typical clumsiness, they knocked over three books while investigating.")
         (js "Their heart raced as they approached the mysterious light.")
         (js "An eerie silence filled the air as they cautiously moved closer.")
         (js "Curiosity sparked in their eyes as they investigated.")) ++ js " What they found would change everything.";
      js "";
      js "SCENE 2: The Secret Revealed";
      (byTone tone
         (characterName ++ js " couldn't believe their eyes - and immediately tripped over their own feet in surprise.")
         (characterName ++ js "'s eyes widened in disbelief at what lay before them.")
         (characterName ++ js " carefully examined the discovery, sensing its importance.")
         (characterName ++ js " gasped as they realized what they had found.")) ++ js " The ancient artifact hummed with energy, its surface covered in symbols they had never seen before. " ++ (whenHumorous tone
         (js "They poked it experimentally, hoping it wouldn't explode.")
         (js "They knew this discovery would change their life forever."));
      js "";
      js "SCENE 3: The Challenge Emerges";
      (byTone tone
         (js "Just as " ++ characterName ++ js " was getting comfortable with their find, everything went hilariously wrong.")
         (js "Suddenly, " ++ characterName ++ js " realized the true weight of their discovery.")
         (js "The artifact began to reveal its secrets, but at what cost?")
         (characterName ++ js " faced their first real test.")) ++ js " The room began to shift and change around them, presenting challenges they never expected. " ++ (whenHumorous tone
         (js "They wondered if they should have just stayed in bed today.")
         (js "This was only the beginning of their adventure."));
      js "";
      js "SCENE 4: The Resolution";
      (byTone tone
         (js "Through a combination of luck and questionable decision-making, " ++ characterName ++ js " found their way forward.")
         (js "With courage they didn't know they possessed, " ++ characterName ++ js " made their choice.")
         (characterName ++ js " embraced the mystery and stepped into the unknown.")
         (characterName ++ js " discovered the strength within themselves.")) ++ js " The artifact's power had awakened something special in them, and they knew their ordinary life was now behind them. " ++ (whenHumorous tone
         (js "They just hoped the next adventure would involve less falling down.")
         (js "This was just the beginning of their extraordinary journey."))
    ].

Definition promptClosingLines
  : list jsstring :=
    [
      js "";
      js "NOW CREATE YOUR STORY WITH EXACTLY 4 SCENES FOLLOWING THIS EXACT FORMAT:"
    ].

(** The example story that the prompt shows to the model. *)
Definition exampleStory (tone : Tone) (characterName : jsstring) : jsstring :=
  join [LF] (exampleStoryLines tone characterName).

Definition buildStoryPrompt (prompt genre_ : jsstring)
  (characterDNA : CharacterDNA) (options : GenerationOptions) : jsstring :=
  let characterName := orElse (name characterDNA) (js "the protagonist") in
  let characterTraits :=
    match traits characterDNA with
    | Some ts => orElse (join (js ", ") ts) (js "adventurous")
    | None => js "adventurous"
    end in
  let characterDescription :=
    match charDescription characterDNA with
    | Some d => orElse d (js "an adventurous character")
    | None => js "an adventurous character"
    end in
  let tone :=
    match tone options with Some t => t | None => lighthearted end in
  let length_ :=
    match length_ options with Some l => l | None => medium end in
  let includeVoice := unlessFalse (includeVoice options) in
  let includeVideo := unlessFalse (includeVideo options) in
  join [LF]
    (promptIntroLines prompt genre_ characterName characterDescription
       characterTraits tone length_ includeVoice includeVideo
     ++ exampleStoryLines tone characterName
     ++ promptClosingLines).

(** ** checkAvailability *)

(** The report of the availability probe: the object with the
    properties [available], [model], [message], or with [available],
    [model], [error], [retryable]. *)
Inductive AvailabilityReport : Type :=
| Available (model message_ : jsstring)
| Unavailable (model error : jsstring) (retryable : bool).

(** The race of the probe call with its 30-second timer.  Here
    [Responds] is the promise of [generateContent] resolving (the probe
    does not read the response), [Rejects] its rejection and [Pending]
    the timer firing first.  As in the retry loop, a rejection carries
    a message: [Outcome] has no rejection whose value lacks one, on
    which [isRetryableError] itself would fail in the [catch] block. *)
Definition raceProbe (o : Outcome) : result unit :=
  match o with
  | Responds _ => Ok tt
  | Rejects m => Throw (Error m)
  | Pending => Throw (Error (js "Gemini availability check timed out"))
  end.

Definition checkAvailability (client : Client) (w : World)
  : AvailabilityReport * World :=
  let w1 := {| calls := calls w + 1; delays := delays w |} in
  match raceProbe (client (calls w)) with
  | Ok _ =>
      (Available (js "gemini-2.0-flash") (js "Gemini AI is available"), w1)
  | Throw error =>
      (Unavailable (js "gemini-2.0-flash") (message error)
         (isRetryableError error), w1)
  end.

(** ** generateStoryboard *)

Record StoryboardRequest : Type := {
  prompt : jsstring;
  requestSceneId : jsstring;
  imageUrl : option jsstring
}.

(** The lines of the template literal of [generateStoryboard]: each
    line break of the source is followed by six spaces. *)
Definition storyboardLines (ls : list jsstring) : jsstring :=
  join (LF :: js "      ") ls.

(** [style] is [None] when the argument is left out: the default is
    ['cartoon'].  Nothing in the [try] block throws on a scene object,
    whose content is a string; the [catch] block rethrows. *)
Definition generateStoryboard (scene : Scene) (style : option jsstring)
  : StoryboardRequest :=
  let style := match style with Some s => s | None => js "cartoon" end in
  {| prompt :=
       storyboardLines
         [ js "Create a detailed storyboard image for this scene:";
           js "";
           js "Title: " ++ title scene;
           js "Character: " ++ characterName scene;
           js "";
           js "Description: " ++ substring0 300 (content scene);
           js "";
           js "Style: " ++ style
             ++ js " storyboard illustration, clear composition, good for animation reference";
           js "";
           js "Requirements:";
           js "- Show the key moment of the scene";
           js "- Include the character prominently";
           js "- Clear visual storytelling";
           js "- Professional storyboard quality";
           js "- " ++ style ++ js " art style" ];
     requestSceneId := sceneId scene;
     imageUrl := None |}.

(** ** What the further properties speak of *)

(** The three labels that [generateStoryboardPrompt] works out from the
    content. *)
Definition sceneSetting (sceneContent : jsstring) : jsstring :=
  classify settingRules (js "indoor scene") (toLowerCase sceneContent).

Definition sceneAction (sceneContent : jsstring) : jsstring :=
  classify actionRules (js "standing") (toLowerCase sceneContent).

Definition sceneMood (sceneContent : jsstring) : jsstring :=
  classify moodRules (js "neutral") (toLowerCase sceneContent).

(** The call of the client numbered [n] fails, within the request
    timeout, with an error that [generateStory] retries. *)
Definition failsRetryably (client : Client) (n : nat) : Prop :=
  exists error,
    raceWithTimeout (client n) = Throw error
    /\ isRetryableError error = true.

(** A client that never answers in time. *)
Definition silent : Client := fun _ => Pending.

(** A client that is overloaded once, then refuses the key. *)
Definition overloadedThenRefused : Client :=
  fun n =>
    match n with
    | 0 => Rejects (js "503 Service Unavailable")
    | _ => Rejects (js "API key not valid")
    end.

(** A client that times out once and then answers. *)
Definition slowThenAnswers : Client :=
  fun n =>
    match n with
    | 0 => Pending
    | _ => Responds oneSceneText
    end.

(** A scene object as the line scan of the fallback strategy holds it:
    its id follows its number, it carries the name of the character
    and a title. *)
Definition scannedScene (characterDNA : CharacterDNA) (s : Scene) : Prop :=
  sceneId s = js "scene_" ++ numToString (number s)
  /\ characterName s = name characterDNA
  /\ title s <> [].

(** A scene built from a title and a content that are not empty, with
    the content as description and the storyboard prompt made from
    title and content. *)
Definition filledScene (characterDNA : CharacterDNA) (sc : Scene) : Prop :=
  exists n t c,
    t <> [] /\ c <> [] /\ sc = parsedScene n t c characterDNA.

(** The story that the parser returns on [oneSceneText]. *)
Definition oneSceneStory : Story :=
  {| storyTitle := js "Mia's Adventure";
     scenes :=
       parsedScene 1 (js "The Start")
         (js "Once upon a time there was a hero who went far away.") mia
       :: continuationScenes mia 2;
     totalScenes := 4;
     character := mia;
     emergencyFallback := false;
     fallbackParsed := false |}.

(** A preamble of two lines. *)
Definition chattyPreamble : jsstring :=
  js "Sure, happy to help!" ++ [LF] ++ js "Here is your story." ++ [LF; LF].

(** A failure message in title case. *)
Definition rateLimitNotice : jsstring := js "HTTP 429: Rate Limit Exceeded".

(** The marked scene numbered [n] (from 0) of the example story: its
    marker line is line [3 * n] of the example, its body line
    [3 * n + 1], followed by a blank line before the next marker. *)
Definition exampleScene (tone : Tone) (characterName : jsstring) (n : nat)
  : MarkedScene :=
  let lines := exampleStoryLines tone characterName in
  {| marker := firstn 8 (nth (3 * n) lines []);
     titleLine := skipn 8 (nth (3 * n) lines []);
     body :=
       nth (3 * n + 1) lines []
       ++ (if n <? 3 then [LF; LF] else []) |}.

(** Options of a request for a funny story without narration. *)
Definition funnyOptions : GenerationOptions :=
  {| tone := Some humorous;
     length_ := None;
     includeVoice := Some false;
     includeVideo := None |}.

(** * Properties *)

(** ** Strings *)

Example split_marker_two :
  split markerRe (js "SCENE 1: A scene 22:B") = [js ""; js " A "; js "B"].
Proof. reflexivity. Qed.

Example split_sentences :
  split sentenceEndRe (js "One. Two?! Three") =
  [js "One"; js " Two"; js " Three"].
Proof. reflexivity. Qed.

Example trim_both_ends : trim (js "  a b  ") = js "a b".
Proof. reflexivity. Qed.

Example numToString_twelve : numToString 12 = js "12".
Proof. reflexivity. Qed.

Example timeout_is_retryable :
  isRetryableError
    (Error (js "Gemini API request timed out after 45 seconds")) = true.
Proof. reflexivity. Qed.

Lemma startsWith_spec (kw s : jsstring) :
  startsWith kw s = true <-> exists b, s = kw ++ b.
Proof.
  revert s; induction kw as [|k kw IH]; intros s; simpl.
  - split; eauto.
  - destruct s as [|c s].
    + split; [discriminate | intros [b Hb]; discriminate].
    + rewrite andb_true_iff, N.eqb_eq, IH. split.
      * intros [-> [b ->]]. now exists b.
      * intros [b Hb]. injection Hb as -> ->. eauto.
Qed.

(** [includes] is the search for a contiguous occurrence. *)
Lemma includes_spec (s kw : jsstring) :
  includes s kw = true <-> exists a b, s = a ++ kw ++ b.
Proof.
  induction s as [|c s IH]; simpl; rewrite orb_true_iff, startsWith_spec.
  - split.
    + intros [[b Hb] | H]; [|discriminate]. now exists [], b.
    + intros [a [b H]]. left.
      destruct a; [now exists b|discriminate].
  - rewrite IH. split.
    + intros [[b Hb] | [a [b Hb]]].
      * now exists [], b.
      * exists (c :: a), b. now rewrite Hb.
    + intros [a [b Hb]]. destruct a as [|x a].
      * left. now exists b.
      * right. injection Hb as _ ->. now exists a, b.
Qed.

Lemma toLowerCase_app (a b : jsstring) :
  toLowerCase (a ++ b) = toLowerCase a ++ toLowerCase b.
Proof. apply flat_map_app. Qed.

(** ** The retry policy *)

Lemma isRetryableError_spec (error : JsError) :
  isRetryableError error = true <->
  exists kw, In kw retryableMessages
             /\ occursIn kw (toLowerCase (message error)).
Proof.
  unfold isRetryableError, occursIn. rewrite existsb_exists.
  split; intros [kw [Hin H]]; exists kw; split; auto;
    now apply includes_spec.
Qed.

Lemma rate_limit_retryable (m : jsstring) :
  occursIn (js "rate limit") m -> isRetryableError (Error m) = true.
Proof.
  intros [a [b ->]]. apply isRetryableError_spec.
  exists (js "rate limit"). split.
  - unfold retryableMessages. simpl. tauto.
  - exists (toLowerCase a), (toLowerCase b). simpl message.
    now rewrite !toLowerCase_app.
Qed.

(** C5: an error is retryable exactly when its lower-cased message
    holds one of the eight keywords; and when the model client fails
    twice with a message holding "rate limit" and then answers,
    [generateStory] returns a result with [success = true] and
    [attempt = 3], having called the client three times and waited
    twice. *)
Theorem retryable_iff_keyword_and_third_attempt_succeeds
  (client : Client) (genre_ : jsstring) (characterDNA : CharacterDNA)
  (w : World) (m1 m2 text : jsstring)
  (H1 : client (calls w) = Rejects m1)
  (H2 : client (calls w + 1) = Rejects m2)
  (H3 : client (calls w + 1 + 1) = Responds text)
  (L1 : occursIn (js "rate limit") m1)
  (L2 : occursIn (js "rate limit") m2) :
  (forall error : JsError,
      isRetryableError error = true <->
      exists kw,
        In kw [ js "overloaded"; js "service unavailable"; js "503";
                js "temporarily unavailable"; js "rate limit";
                js "quota exceeded"; js "timed out"; js "timeout" ]
        /\ occursIn kw (toLowerCase (message error)))
  /\ exists r,
      generateStory client genre_ characterDNA w =
      (Ok (Some r),
       {| calls := calls w + 1 + 1 + 1;
          delays := (delays w ++ [retryDelay]) ++ [retryDelay] |})
      /\ success r = true
      /\ attempt (metadata r) = 3.
Proof.
  split.
  - intros error. apply isRetryableError_spec.
  - unfold generateStory, maxRetries.
    cbn [attemptLoop]. rewrite H1. cbn [raceWithTimeout].
    rewrite (rate_limit_retryable _ L1). cbn [negb orb Nat.eqb calls delays].
    rewrite H2. cbn [raceWithTimeout].
    rewrite (rate_limit_retryable _ L2). cbn [negb orb Nat.eqb Nat.add calls delays].
    rewrite H3. cbn [raceWithTimeout].
    eexists. split; [reflexivity|]. split; reflexivity.
Qed.

Lemma retryable_iff_keyword_and_third_attempt_succeeds_witness :
  exists r,
    fst (generateStory limitedTwice (js "fantasy") mia freshWorld)
    = Ok (Some r)
    /\ success r = true /\ attempt (metadata r) = 3.
Proof.
  destruct (@retryable_iff_keyword_and_third_attempt_succeeds
              limitedTwice (js "fantasy") mia freshWorld
              (js "429: Rate Limit reached, rate limit applies")
              (js "429: Rate Limit reached, rate limit applies")
              oneSceneText eq_refl eq_refl eq_refl)
    as [_ [r [Hr Hs]]].
  - exists (js "429: Rate Limit reached, "), (js " applies"). reflexivity.
  - exists (js "429: Rate Limit reached, "), (js " applies"). reflexivity.
  - exists r. rewrite Hr. split; [reflexivity | exact Hs].
Defined.

(** C6: when the first call of the model client fails with a message
    whose lower-cased form holds none of the retryable keywords,
    [generateStory] throws at once: one call of the client, no delay,
    and a message made of the attempt count and the message of the
    failure. *)
Theorem non_retryable_fails_on_first_attempt
  (client : Client) (genre_ : jsstring) (characterDNA : CharacterDNA)
  (w : World) (m : jsstring)
  (H1 : client (calls w) = Rejects m)
  (Hn : forall kw, In kw retryableMessages ->
                   ~ occursIn kw (toLowerCase m)) :
  generateStory client genre_ characterDNA w =
  (Throw (Error (js "Story generation failed after " ++ numToString 1
                 ++ js " attempts: " ++ m)),
   {| calls := calls w + 1; delays := delays w |})
  /\ occursIn (numToString 1)
       (js "Story generation failed after " ++ numToString 1
        ++ js " attempts: " ++ m)
  /\ occursIn m
       (js "Story generation failed after " ++ numToString 1
        ++ js " attempts: " ++ m).
Proof.
  assert (Hr : isRetryableError (Error m) = false).
  { destruct (isRetryableError (Error m)) eqn:E; [|reflexivity].
    apply isRetryableError_spec in E as [kw [Hin Hocc]].
    now destruct (Hn kw Hin). }
  split; [|split].
  - unfold generateStory, maxRetries. cbn [attemptLoop].
    rewrite H1. cbn [raceWithTimeout]. rewrite Hr.
    cbn [negb orb Nat.eqb]. reflexivity.
  - exists (js "Story generation failed after "), (js " attempts: " ++ m).
    reflexivity.
  - exists (js "Story generation failed after " ++ numToString 1
            ++ js " attempts: "), [].
    now rewrite app_nil_r, <- !app_assoc.
Qed.

Lemma non_retryable_fails_on_first_attempt_witness :
  generateStory badKey (js "fantasy") mia freshWorld =
  (Throw (Error (js "Story generation failed after 1 attempts: invalid api key")),
   {| calls := 1; delays := [] |}).
Proof.
  refine (proj1 (non_retryable_fails_on_first_attempt badKey (js "fantasy")
                   mia freshWorld (js "invalid api key") eq_refl _)).
  intros kw Hin Hocc.
  assert (E : isRetryableError (Error (js "invalid api key")) = true).
  { apply isRetryableError_spec. exists kw. split; assumption. }
  vm_compute in E. discriminate E.
Defined.

(** ** The guard of the parser *)

Lemma parseStoryIntoScenes_short (storyText : jsstring)
  (characterDNA : CharacterDNA) :
  length storyText < 50 ->
  parseStoryIntoScenes storyText characterDNA =
  Ok (createEmergencyFallback characterDNA storyText).
Proof.
  intros H. unfold parseStoryIntoScenes.
  apply Nat.ltb_lt in H. now rewrite H, orb_true_r.
Qed.

(** C7: a text that is empty or shorter than 50 code units gives the
    emergency story at once: one scene [scene_1] numbered 1 whose
    content is the text, or the placeholder when the text is empty;
    [totalScenes] is 1 and [emergencyFallback] is set. *)
Theorem short_text_gives_emergency_story
  (storyText : jsstring) (characterDNA : CharacterDNA)
  (Hshort : length storyText < 50) :
  exists st sc,
    parseStoryIntoScenes storyText characterDNA = Ok st
    /\ scenes st = [sc]
    /\ sceneId sc = js "scene_1"
    /\ number sc = 1
    /\ content sc =
       match storyText with
       | [] => name characterDNA ++
               js " embarks on an exciting adventure filled with challenges and discoveries."
       | _ => storyText
       end
    /\ totalScenes st = 1
    /\ emergencyFallback st = true.
Proof.
  rewrite parseStoryIntoScenes_short by exact Hshort.
  eexists; eexists. split; [reflexivity|]. cbn.
  destruct storyText; repeat split; reflexivity.
Qed.

Lemma short_text_gives_emergency_story_witness :
  exists st sc,
    parseStoryIntoScenes tinyFourScenes mia = Ok st
    /\ scenes st = [sc]
    /\ sceneId sc = js "scene_1"
    /\ number sc = 1
    /\ content sc = tinyFourScenes
    /\ totalScenes st = 1
    /\ emergencyFallback st = true.
Proof.
  apply (@short_text_gives_emergency_story tinyFourScenes mia).
  vm_compute. lia.
Defined.

(** ** The parser never throws *)

Lemma Ok_inj {A} (a b : A) : Ok a = Ok b -> a = b.
Proof. now intros [= ->]. Qed.

Lemma split_fuel_cons (r : list atom) (fuel : nat) (s : jsstring) :
  exists p ps, split_fuel r fuel s = p :: ps.
Proof.
  destruct fuel as [|fuel]; simpl; [eauto|].
  destruct (find_sep r s) as [[b a]|]; eauto.
Qed.

Lemma splitOn_cons (d : N) (s : jsstring) :
  exists l ls, splitOn d s = l :: ls.
Proof.
  induction s as [|c s [l [ls IH]]]; simpl; [eauto|].
  destruct (c =? d)%N; [eauto|]. rewrite IH. eauto.
Qed.

Lemma extractScene_ok (rawPart : jsstring) :
  exists x, extractScene rawPart = Ok x.
Proof.
  unfold extractScene.
  destruct (length (trim rawPart) =? 0); [eauto|].
  destruct (splitOn_cons LF (trim rawPart)) as [l [ls ->]]. cbn.
  destruct (_ && _); eauto.
Qed.

Lemma primaryLoop_ok (characterDNA : CharacterDNA) (parts : list jsstring) :
  forall scenes, exists l, primaryLoop characterDNA parts scenes = Ok l.
Proof.
  induction parts as [|p parts IH]; intros scs; simpl; [eauto|].
  destruct (length scs <? 4); [|eauto].
  destruct (extractScene_ok p) as [x ->]. cbn.
  destruct x as [[t c]|]; apply IH.
Qed.

Lemma primaryScenes_ok (storyText : jsstring) (characterDNA : CharacterDNA) :
  exists l, primaryScenes storyText characterDNA = Ok l.
Proof.
  unfold primaryScenes, split.
  destruct (split_fuel_cons markerRe (length storyText) storyText)
    as [p [ps ->]].
  cbn. apply primaryLoop_ok.
Qed.

Lemma parseStoryIntoScenes_total (storyText : jsstring)
  (characterDNA : CharacterDNA) :
  exists st, parseStoryIntoScenes storyText characterDNA = Ok st.
Proof.
  unfold parseStoryIntoScenes.
  destruct (_ || _); [eauto|].
  destruct (primaryScenes_ok storyText characterDNA) as [l ->]. cbn.
  destruct (length l =? 0); eauto.
Qed.

(** The parser sets [emergencyFallback] only on the one-scene story. *)
Lemma emergency_story_has_one_scene (storyText : jsstring)
  (characterDNA : CharacterDNA) (st : Story) :
  parseStoryIntoScenes storyText characterDNA = Ok st ->
  emergencyFallback st = true -> length (scenes st) = 1.
Proof.
  unfold parseStoryIntoScenes.
  destruct (_ || _).
  - intros [= <-]. reflexivity.
  - destruct (primaryScenes_ok storyText characterDNA) as [l ->]. cbn.
    destruct (length l =? 0); intros [= <-]; discriminate.
Qed.

(** ** The result of generateStory *)

Lemma attemptLoop_sceneCount (client : Client) (genre_ : jsstring)
  (characterDNA : CharacterDNA) (fuel : nat) :
  forall attempt_ w r w',
    attemptLoop client genre_ characterDNA fuel attempt_ w = (Ok (Some r), w') ->
    sceneCount (metadata r) = length (scenes (story r))
    /\ (emergencyFallback (story r) = true -> sceneCount (metadata r) = 1).
Proof.
  induction fuel as [|fuel IH]; intros attempt_ w r w'; simpl.
  - discriminate.
  - destruct (raceWithTimeout (client (calls w))) as [storyText|error].
    + intros [= <- _]. cbn. split; [reflexivity|].
      destruct (parseStoryIntoScenes storyText characterDNA) as [st|e] eqn:E.
      * now apply emergency_story_has_one_scene with (1 := E).
      * reflexivity.
    + destruct (_ || _); [discriminate|]. apply IH.
Qed.

(** C10: in every result that [generateStory] returns,
    [metadata.sceneCount] is the number of scenes of the story; when
    the story is an emergency story it is 1. *)
Theorem sceneCount_is_number_of_scenes
  (client : Client) (genre_ : jsstring) (characterDNA : CharacterDNA)
  (w w' : World) (r : GenerationResult)
  (Hret : generateStory client genre_ characterDNA w = (Ok (Some r), w')) :
  sceneCount (metadata r) = length (scenes (story r))
  /\ (emergencyFallback (story r) = true -> sceneCount (metadata r) = 1).
Proof.
  unfold generateStory in Hret.
  now apply attemptLoop_sceneCount with (1 := Hret).
Qed.

Lemma sceneCount_is_number_of_scenes_witness :
  sceneCount (metadata shortAnswerResult)
  = length (scenes (story shortAnswerResult))
  /\ (emergencyFallback (story shortAnswerResult) = true ->
      sceneCount (metadata shortAnswerResult) = 1).
Proof.
  exact (@sceneCount_is_number_of_scenes shortAnswer (js "fantasy") mia
           freshWorld {| calls := 1; delays := [] |} shortAnswerResult
           eq_refl).
Defined.

(** ** Patterns *)

Lemma greedy_sound (p : N -> bool) (k : jsstring -> option jsstring) :
  forall s r,
    greedy p k s = Some r ->
    exists run rest,
      s = run ++ rest /\ forallb p run = true /\ k rest = Some r.
Proof.
  induction s as [|c s IH]; intros r; simpl.
  - intros H. now exists [], [].
  - destruct (p c) eqn:Hp.
    + destruct (greedy p k s) as [t|] eqn:G.
      * intros [= <-]. destruct (IH t eq_refl) as [run [rest [-> [Hr Hk]]]].
        exists (c :: run), rest. simpl. now rewrite Hp, Hr.
      * intros H. now exists [], (c :: s).
    + intros H. now exists [], (c :: s).
Qed.

(** A greedy run stops where the class stops, when the continuation
    accepts there. *)
Lemma greedy_maximal (p : N -> bool) (k : jsstring -> option jsstring)
  (rest r : jsstring) :
  forallb p (firstn 1 rest) = false \/ rest = [] ->
  k rest = Some r ->
  forall run, forallb p run = true -> greedy p k (run ++ rest) = Some r.
Proof.
  intros Hstop Hk. induction run as [|c run IH]; simpl.
  - intros _. destruct rest as [|d rest]; simpl; [exact Hk|].
    destruct Hstop as [Hstop|Hstop]; [|discriminate].
    simpl in Hstop. rewrite andb_true_r in Hstop. now rewrite Hstop.
  - intros H. apply andb_true_iff in H as [Hc Hrun].
    now rewrite Hc, (IH Hrun).
Qed.

Ltac match_one H c s E :=
  destruct s as [|c s]; [discriminate H|];
  cbn [re_match] in H;
  match type of H with
  | (if ?b then _ else _) = _ => destruct b eqn:E; [|discriminate H]
  end.

(** The pattern [markerRe] matches the markers and nothing else. *)
Lemma re_match_marker_sound (s r : jsstring) :
  re_match markerRe s = Some r -> exists m, isMarker m /\ s = m ++ r.
Proof.
  unfold markerRe, sceneWord. cbn [app]. intros H.
  match_one H c1 s E1. match_one H c2 s E2. match_one H c3 s E3.
  match_one H c4 s E4. match_one H c5 s E5. match_one H c6 s E6.
  apply greedy_sound in H as [ws [rest [-> [Hws H]]]].
  match_one H d rest Ed.
  apply greedy_sound in H as [ds [rest' [-> [Hds H]]]].
  match_one H x rest' Ex.
  injection H as ->. apply N.eqb_eq in Ex. subst x.
  exists ([c1; c2; c3; c4; c5] ++ (c6 :: ws) ++ (d :: ds) ++ [58%N]).
  split.
  - exists c1, c2, c3, c4, c5, (c6 :: ws), (d :: ds).
    repeat split; auto; try discriminate; simpl;
      rewrite ?E6, ?Ed; auto.
  - cbn [app]. rewrite <- !app_assoc. cbn [app]. rewrite <- !app_assoc.
    reflexivity.
Qed.

Lemma digit_not_space (c : N) : isDigit c = true -> isWhiteSpace c = false.
Proof.
  unfold isDigit, isWhiteSpace. intros H.
  apply andb_true_iff in H as [H1 H2].
  apply N.leb_le in H1. apply N.leb_le in H2.
  repeat match goal with
         | |- context [(?a <=? ?b)%N] =>
             destruct (N.leb_spec a b); try lia
         | |- context [(?a =? ?b)%N] =>
             destruct (N.eqb_spec a b); try lia
         end; reflexivity.
Qed.

Lemma re_match_marker_complete (m r : jsstring) :
  isMarker m -> re_match markerRe (m ++ r) = Some r.
Proof.
  intros (c1 & c2 & c3 & c4 & c5 & ws & ds & -> & E1 & E2 & E3 & E4 & E5
          & Hws0 & Hws & Hds0 & Hds).
  unfold markerRe, sceneWord. cbn [app re_match].
  rewrite E1, E2, E3, E4, E5.
  destruct ws as [|c6 ws]; [congruence|].
  destruct ds as [|d ds]; [congruence|].
  simpl in Hws, Hds.
  apply andb_true_iff in Hws as [E6 Hws].
  apply andb_true_iff in Hds as [Ed Hds].
  cbn [app]. rewrite E6. rewrite <- app_assoc.
  apply greedy_maximal; [| |exact Hws].
  - left. cbn. now rewrite (digit_not_space _ Ed).
  - cbn [app re_match]. rewrite Ed. rewrite <- app_assoc.
    apply greedy_maximal; [| |exact Hds].
    + left. reflexivity.
    + cbn. reflexivity.
Qed.

(** ** Splitting *)

(** A match is a prefix of the text. *)
Lemma re_match_prefix (r : list atom) :
  forall s rest, re_match r s = Some rest -> exists m, s = m ++ rest.
Proof.
  induction r as [|[p|p|p] r IHr]; intros s rest; cbn [re_match].
  - intros [= ->]. now exists [].
  - destruct s as [|c s]; [discriminate|].
    destruct (p c); [|discriminate].
    intros H. destruct (IHr _ _ H) as [m ->]. now exists (c :: m).
  - destruct s as [|c s]; [discriminate|].
    destruct (p c); [|discriminate].
    intros H. apply greedy_sound in H as [run [t [-> [_ H]]]].
    destruct (IHr _ _ H) as [m ->]. exists (c :: run ++ m).
    cbn [app]. now rewrite <- app_assoc.
  - intros H. apply greedy_sound in H as [run [t [-> [_ H]]]].
    destruct (IHr _ _ H) as [m ->]. exists (run ++ m).
    now rewrite <- app_assoc.
Qed.

Lemma find_sep_app (r : list atom) :
  forall s b a,
    find_sep r s = Some (b, a) ->
    exists m, s = b ++ m ++ a /\ m <> [] /\ re_match r (m ++ a) = Some a.
Proof.
  induction s as [|c s IH]; intros b a; [discriminate|].
  assert (Hrec :
    match find_sep r s with
    | Some (b0, a0) => Some (c :: b0, a0)
    | None => None
    end = Some (b, a) ->
    exists m, c :: s = b ++ m ++ a /\ m <> []
              /\ re_match r (m ++ a) = Some a).
  { destruct (find_sep r s) as [[b0 a0]|]; [|discriminate].
    intros [= <- <-]. destruct (IH b0 a0 eq_refl) as [m [-> [Hm Hr]]].
    exists m. auto. }
  cbn [find_sep].
  destruct (re_match r (c :: s)) as [rest|] eqn:E; [|exact Hrec].
  destruct (length rest <? length (c :: s)) eqn:L; [|exact Hrec].
  intros [= <- <-].
  destruct (re_match_prefix _ _ _ E) as [m Hm].
  exists m. cbn [app]. split; [exact Hm|]. split.
  - intros ->. cbn [app] in Hm. apply Nat.ltb_lt in L. rewrite Hm in L. lia.
  - now rewrite <- Hm.
Qed.

Lemma find_sep_shorter (r : list atom) (s b a : jsstring) :
  find_sep r s = Some (b, a) -> length a < length s.
Proof.
  intros H. destruct (find_sep_app _ _ _ _ H) as [m [-> [Hm _]]].
  rewrite !length_app. destruct m; [congruence|]. simpl. lia.
Qed.

Lemma split_fuel_enough (r : list atom) :
  forall n m s,
    length s <= n -> length s <= m -> split_fuel r n s = split_fuel r m s.
Proof.
  induction n as [|n IH]; intros m s Hn Hm.
  - destruct s; [|simpl in Hn; lia]. destruct m; reflexivity.
  - destruct m as [|m].
    + destruct s; [|simpl in Hm; lia]. reflexivity.
    + simpl. destruct (find_sep r s) as [[b a]|] eqn:E; [|reflexivity].
      apply find_sep_shorter in E. f_equal. apply IH; lia.
Qed.

Lemma split_hit (r : list atom) (s b a : jsstring) :
  find_sep r s = Some (b, a) -> split r s = b :: split r a.
Proof.
  intros H. unfold split. pose proof (find_sep_shorter _ _ _ _ H) as L.
  destruct (length s) as [|n] eqn:E; [lia|].
  simpl. rewrite H. f_equal. apply split_fuel_enough; lia.
Qed.

Lemma split_miss (r : list atom) (s : jsstring) :
  find_sep r s = None -> split r s = [s].
Proof.
  intros H. unfold split. destruct (length s); simpl; [|rewrite H];
    reflexivity.
Qed.

(** ** Markers in a text *)

Lemma ci_cases (u c : N) : ci u c = true -> c = u \/ c = (u + 32)%N.
Proof.
  unfold ci. rewrite orb_true_iff, !N.eqb_eq. tauto.
Qed.

Ltac not_S :=
  match goal with
  | |- ci 83 ?x = false =>
      destruct (ci 83 x) eqn:?E; [|reflexivity];
      apply ci_cases in E; destruct E; subst x; discriminate
  end.

(** Only the first unit of a marker is an S. *)
Lemma marker_shape (m : jsstring) :
  isMarker m ->
  exists c tl, m = c :: tl /\ ci 83 c = true
               /\ Forall (fun x => ci 83 x = false) tl.
Proof.
  intros (c1 & c2 & c3 & c4 & c5 & ws & ds & -> & E1 & E2 & E3 & E4 & E5
          & _ & Hws & _ & Hds).
  exists c1, ([c2; c3; c4; c5] ++ ws ++ ds ++ [58%N]).
  split; [reflexivity|]. split; [exact E1|].
  rewrite forallb_forall in Hws, Hds.
  apply Forall_app; split; [|apply Forall_app; split;
                              [|apply Forall_app; split]].
  - repeat constructor; not_S.
  - apply Forall_forall. intros x Hx. specialize (Hws x Hx). not_S.
  - apply Forall_forall. intros x Hx. specialize (Hds x Hx). not_S.
  - repeat constructor.
Qed.

Lemma markerFree_tail (c : N) (s : jsstring) :
  markerFree (c :: s) -> markerFree s.
Proof.
  intros H a m b ->. now apply (H (c :: a) m b).
Qed.

Lemma find_sep_marker_none (s : jsstring) :
  markerFree s -> find_sep markerRe s = None.
Proof.
  induction s as [|c s IH]; intros H; [reflexivity|].
  cbn [find_sep]. rewrite (IH (markerFree_tail _ _ H)).
  destruct (re_match markerRe (c :: s)) as [rest|] eqn:E.
  - apply re_match_marker_sound in E as [m [Hm E]].
    exfalso. apply (H [] m rest); auto.
  - reflexivity.
Qed.

(** No match starts inside a marker-free stretch that a marker
    follows. *)
Lemma no_match_before_marker (b m rest : jsstring) :
  markerFree b -> isMarker m -> b <> [] ->
  re_match markerRe (b ++ m ++ rest) = None.
Proof.
  intros Hb Hm Hne.
  destruct (re_match markerRe (b ++ m ++ rest)) as [r'|] eqn:E;
    [|reflexivity].
  exfalso. apply re_match_marker_sound in E as [m' [Hm' E]].
  apply app_eq_app in E as [l [[-> ->]|[-> E]]].
  - now apply (Hb [] m' l).
  - destruct l as [|y l].
    + rewrite app_nil_r in Hm'. apply (Hb [] b []); auto.
      now rewrite app_nil_r.
    + destruct (marker_shape _ Hm) as [c [tl [-> [Hc _]]]].
      injection E as <- _.
      destruct (marker_shape _ Hm') as [c' [tl' [E' [_ Htl]]]].
      destruct b as [|b0 b]; [congruence|].
      injection E' as _ <-.
      apply Forall_app in Htl as [_ Htl].
      inversion Htl; congruence.
Qed.

Lemma find_sep_marker_hit (m rest : jsstring) :
  isMarker m ->
  forall x, markerFree x -> find_sep markerRe (x ++ m ++ rest) = Some (x, rest).
Proof.
  intros Hm. induction x as [|c x IH]; intros Hx.
  - destruct (marker_shape _ Hm) as [c [tl [E _]]].
    cbn [app]. pose proof (re_match_marker_complete _ rest Hm) as R.
    rewrite E in *. cbn [app find_sep] in *. rewrite R.
    replace (length rest <? length (c :: tl ++ rest)) with true; [reflexivity|].
    symmetry. apply Nat.ltb_lt. simpl. rewrite length_app. lia.
  - cbn [app find_sep].
    pose proof (@no_match_before_marker (c :: x) m rest Hx Hm) as N.
    cbn [app] in N. rewrite N by discriminate.
    now rewrite (IH (markerFree_tail _ _ Hx)).
Qed.

(** A marker-free stretch followed by a marker is the next part. *)
Lemma split_marked (x m rest : jsstring) :
  markerFree x -> isMarker m ->
  split markerRe (x ++ m ++ rest) = x :: split markerRe rest.
Proof.
  intros Hx Hm. apply split_hit. now apply find_sep_marker_hit.
Qed.

Lemma split_markerFree (x : jsstring) :
  markerFree x -> split markerRe x = [x].
Proof.
  intros Hx. apply split_miss. now apply find_sep_marker_none.
Qed.

(** The test [markerFreeb] decides [markerFree]. *)
Lemma markerFreeb_sound (s : jsstring) :
  markerFreeb s = true -> markerFree s.
Proof.
  induction s as [|c s IH]; simpl.
  - intros _ a m b E Hm.
    destruct (marker_shape _ Hm) as [c [tl [-> _]]].
    destruct a; discriminate.
  - intros H. apply andb_true_iff in H as [H1 H2].
    intros a m b E Hm. destruct a as [|c' a].
    + cbn [app] in E. unfold matches in H1.
      rewrite E, (re_match_marker_complete _ b Hm) in H1. discriminate.
    + injection E as _ E. exact (IH H2 a m b E Hm).
Qed.

(** ** Trimming *)

Lemma dropWhile_snoc (p : N -> bool) (c : N) :
  forall l,
    dropWhile p (l ++ [c]) =
    match dropWhile p l with
    | [] => if p c then [] else [c]
    | t => t ++ [c]
    end.
Proof.
  induction l as [|a l IH]; simpl.
  - destruct (p c); reflexivity.
  - destruct (p a); [exact IH | reflexivity].
Qed.

(** [trimEnd] read from the left. *)
Lemma trimEnd_cons (c : N) (y : jsstring) :
  trimEnd (c :: y) =
  match trimEnd y with
  | [] => if isWhiteSpace c then [] else [c]
  | _ => c :: trimEnd y
  end.
Proof.
  unfold trimEnd. cbn [rev]. rewrite dropWhile_snoc.
  destruct (dropWhile isWhiteSpace (rev y)) as [|d t] eqn:E.
  - cbn [rev]. destruct (isWhiteSpace c); reflexivity.
  - rewrite rev_app_distr. cbn [rev app].
    destruct (rev t ++ [d]) eqn:E'; [|reflexivity].
    destruct (rev t); discriminate.
Qed.

Lemma trimEnd_nil : trimEnd [] = [].
Proof. reflexivity. Qed.

Lemma trimEnd_app (x y : jsstring) :
  trimEnd y <> [] -> trimEnd (x ++ y) = x ++ trimEnd y.
Proof.
  intros Hy. induction x as [|c x IH]; [reflexivity|].
  cbn [app]. rewrite trimEnd_cons, IH.
  destruct (x ++ trimEnd y) eqn:E; [|reflexivity].
  apply app_eq_nil in E as [_ E]. congruence.
Qed.

Lemma trimEnd_idem (y : jsstring) : trimEnd (trimEnd y) = trimEnd y.
Proof.
  induction y as [|c y IH]; [reflexivity|].
  rewrite trimEnd_cons.
  destruct (trimEnd y) as [|d t] eqn:E.
  - destruct (isWhiteSpace c) eqn:Hc; [reflexivity|].
    rewrite trimEnd_cons, trimEnd_nil, Hc. reflexivity.
  - rewrite trimEnd_cons, IH. reflexivity.
Qed.

Lemma trimStart_idem (s : jsstring) : trimStart (trimStart s) = trimStart s.
Proof.
  unfold trimStart. induction s as [|c s IH]; [reflexivity|].
  simpl. destruct (isWhiteSpace c) eqn:Hc; [exact IH|].
  simpl. now rewrite Hc.
Qed.

Lemma trimStart_trimEnd (y : jsstring) :
  trimStart (trimEnd y) = trimEnd (trimStart y).
Proof.
  induction y as [|c y IH]; [reflexivity|].
  rewrite trimEnd_cons. unfold trimStart in *. cbn [dropWhile].
  destruct (isWhiteSpace c) eqn:Hc.
  - rewrite <- IH. destruct (trimEnd y); [reflexivity|].
    cbn [dropWhile]. now rewrite Hc.
  - rewrite trimEnd_cons.
    destruct (trimEnd y); rewrite ?Hc; cbn [dropWhile]; now rewrite Hc.
Qed.

Lemma trim_trimStart (s : jsstring) : trim (trimStart s) = trim s.
Proof. unfold trim. now rewrite trimStart_idem. Qed.

Lemma trim_trimEnd (s : jsstring) : trim (trimEnd s) = trim s.
Proof. unfold trim. now rewrite trimStart_trimEnd, trimEnd_idem. Qed.

Lemma trim_nonempty_start (s : jsstring) : trim s <> [] -> trimStart s <> [].
Proof. unfold trim. intros H E. now rewrite E in H. Qed.

Lemma trim_nonempty_end (s : jsstring) : trim s <> [] -> trimEnd s <> [].
Proof.
  unfold trim. rewrite <- trimStart_trimEnd. intros H E. now rewrite E in H.
Qed.

Lemma dropWhile_app_keep (p : N -> bool) (x y : jsstring) :
  dropWhile p x <> [] -> dropWhile p (x ++ y) = dropWhile p x ++ y.
Proof.
  induction x as [|c x IH]; simpl; [congruence|].
  destruct (p c); auto.
Qed.

Lemma dropWhile_incl (p : N -> bool) (s : jsstring) :
  incl (dropWhile p s) s.
Proof.
  induction s as [|c s IH]; simpl; [apply incl_refl|].
  destruct (p c); [now apply incl_tl | apply incl_refl].
Qed.

Lemma trimStart_incl (s : jsstring) : incl (trimStart s) s.
Proof. apply dropWhile_incl. Qed.

(** ** Lines *)

Lemma splitOn_no_sep (d : N) (s : jsstring) :
  ~ In d s -> splitOn d s = [s].
Proof.
  induction s as [|c s IH]; [reflexivity|].
  intros H. simpl. destruct (N.eqb_spec c d) as [->|Hne].
  - exfalso. apply H. now left.
  - rewrite IH; [reflexivity|]. intros Hin. apply H. now right.
Qed.

Lemma splitOn_app (d : N) (a b : jsstring) :
  ~ In d a -> splitOn d (a ++ d :: b) = a :: splitOn d b.
Proof.
  induction a as [|c a IH]; intros H.
  - simpl. now rewrite N.eqb_refl.
  - cbn [app splitOn]. destruct (N.eqb_spec c d) as [->|Hne].
    + exfalso. apply H. now left.
    + rewrite IH; [reflexivity|]. intros Hin. apply H. now right.
Qed.

Lemma join_splitOn (d : N) (s : jsstring) : join [d] (splitOn d s) = s.
Proof.
  induction s as [|c s IH]; [reflexivity|].
  cbn [splitOn]. destruct (splitOn_cons d s) as [l [ls E]].
  rewrite E in *. destruct (c =? d)%N eqn:Hc.
  - apply N.eqb_eq in Hc. subst c.
    change (join [d] ([] :: l :: ls)) with ([] ++ [d] ++ join [d] (l :: ls)).
    now rewrite IH.
  - destruct ls as [|l' ls].
    + cbn [join] in *. now rewrite IH.
    + change (join [d] ((c :: l) :: l' :: ls))
        with (c :: join [d] (l :: l' :: ls)).
      now rewrite IH.
Qed.

(** ** The primary strategy *)

Lemma length_pos_iff (s : jsstring) : (0 <? length s) = true <-> s <> [].
Proof.
  destruct s; cbn; split; try congruence; try discriminate.
Qed.

Lemma extractScene_marked (t b : jsstring) :
  ~ In LF t -> trim t <> [] -> trim b <> [] ->
  extractScene (t ++ [LF] ++ b) = Ok (Some (trim t, trim b)).
Proof.
  intros Hlf Ht Hb.
  pose proof (trim_nonempty_start _ Ht) as Hts.
  pose proof (trim_nonempty_end _ Hb) as Hbe.
  assert (Hpart : trim (t ++ [LF] ++ b) = trimStart t ++ LF :: trimEnd b).
  { unfold trim at 1. unfold trimStart at 1.
    rewrite dropWhile_app_keep by exact Hts.
    fold (trimStart t). cbn [app].
    pose proof (trimEnd_app [LF] b Hbe) as E. cbn [app] in E.
    rewrite trimEnd_app; rewrite E; [reflexivity | discriminate]. }
  unfold extractScene. rewrite Hpart.
  replace (length (trimStart t ++ LF :: trimEnd b) =? 0) with false
    by (symmetry; rewrite length_app; simpl; apply Nat.eqb_neq; lia).
  rewrite splitOn_app
    by (intros Hin; apply Hlf; now apply trimStart_incl).
  cbn [index nth_error bind skipn].
  rewrite join_splitOn, trim_trimStart, trim_trimEnd.
  apply length_pos_iff in Ht. apply length_pos_iff in Hb.
  now rewrite Ht, Hb.
Qed.

Lemma extractScene_one_line (p : jsstring) :
  ~ In LF (trim p) -> extractScene p = Ok None.
Proof.
  intros H. unfold extractScene.
  destruct (length (trim p) =? 0); [reflexivity|].
  rewrite (splitOn_no_sep _ _ H). cbn. now rewrite andb_false_r.
Qed.

Lemma primaryLoop_spec (characterDNA : CharacterDNA) :
  forall parts scs,
    length scs <= 4 ->
    primaryLoop characterDNA parts scs =
    Ok (scs ++ numberScenes characterDNA (length scs + 1)
                 (firstn (4 - length scs) (flat_map segmentOf parts))).
Proof.
  induction parts as [|p parts IH]; intros scs Hle.
  - cbn. now rewrite firstn_nil, app_nil_r.
  - cbn [primaryLoop flat_map].
    destruct (Nat.ltb_spec (length scs) 4) as [Hlt|Hge].
    + unfold segmentOf at 1.
      destruct (extractScene_ok p) as [[[t c]|] ->]; cbn [bind app].
      * rewrite IH by (rewrite length_app; simpl; lia).
        rewrite length_app. cbn [length].
        destruct (4 - length scs) as [|k] eqn:E; [lia|].
        cbn [firstn numberScenes]. rewrite <- app_assoc. cbn [app].
        replace (4 - (length scs + 1)) with k by lia.
        replace (length scs + 1 + 1) with (S (length scs + 1)) by lia.
        reflexivity.
      * now apply IH.
    + replace (4 - length scs) with 0 by lia.
      cbn. now rewrite app_nil_r.
Qed.

Lemma primaryScenes_spec (storyText : jsstring) (characterDNA : CharacterDNA) :
  primaryScenes storyText characterDNA =
  Ok (numberScenes characterDNA 1 (firstn 4 (usableSegments storyText))).
Proof.
  unfold primaryScenes, usableSegments, split.
  destruct (split_fuel_cons markerRe (length storyText) storyText)
    as [p0 [ps ->]].
  cbn [index nth_error bind].
  destruct (length (trim p0) =? 0) eqn:E.
  - cbn [skipn flat_map]. unfold segmentOf at 1, extractScene. rewrite E.
    cbn [app]. now rewrite primaryLoop_spec by (simpl; lia).
  - cbn [skipn]. now rewrite primaryLoop_spec by (simpl; lia).
Qed.

Lemma numberScenes_length (characterDNA : CharacterDNA) :
  forall segs k, length (numberScenes characterDNA k segs) = length segs.
Proof.
  induction segs as [|[t c] segs IH]; intros k; simpl; [|rewrite IH];
    reflexivity.
Qed.

Lemma padLoop_spec (characterDNA : CharacterDNA) :
  forall fuel scs,
    4 <= fuel + length scs ->
    padLoop fuel characterDNA scs =
    scs ++ continuationScenes characterDNA (length scs + 1).
Proof.
  unfold continuationScenes.
  induction fuel as [|fuel IH]; intros scs H.
  - cbn [padLoop]. replace (5 - (length scs + 1)) with 0 by lia.
    now rewrite app_nil_r.
  - cbn [padLoop]. destruct (Nat.ltb_spec (length scs) 4) as [Hlt|Hge].
    + rewrite IH by (rewrite length_app; simpl; lia).
      rewrite length_app. cbn [length]. rewrite <- app_assoc. f_equal.
      replace (5 - (length scs + 1)) with (S (5 - (length scs + 1 + 1)))
        by lia.
      cbn [seq map app]. do 3 f_equal. lia.
    + replace (5 - (length scs + 1)) with 0 by lia.
      now rewrite app_nil_r.
Qed.

Lemma normalizeScenes_spec (characterDNA : CharacterDNA) (scs : list Scene) :
  length scs <= 4 ->
  normalizeScenes characterDNA scs =
  scs ++ continuationScenes characterDNA (length scs + 1).
Proof.
  intros H. unfold normalizeScenes.
  destruct (Nat.ltb_spec 4 (length scs)); [lia|].
  destruct (Nat.ltb_spec (length scs) 4).
  - apply padLoop_spec. lia.
  - unfold continuationScenes.
    replace (5 - (length scs + 1)) with 0 by lia. now rewrite app_nil_r.
Qed.

(** The story of the parser on a text of 50 units or more, by whether
    the primary strategy finds a segment. *)
Lemma parseStoryIntoScenes_primary (storyText : jsstring)
  (characterDNA : CharacterDNA) :
  50 <= length storyText ->
  usableSegments storyText <> [] ->
  parseStoryIntoScenes storyText characterDNA =
  Ok {| storyTitle := adventureTitle characterDNA;
        scenes :=
          numberScenes characterDNA 1 (firstn 4 (usableSegments storyText))
          ++ continuationScenes characterDNA
               (length (firstn 4 (usableSegments storyText)) + 1);
        totalScenes := 4;
        character := characterDNA;
        emergencyFallback := false;
        fallbackParsed := false |}.
Proof.
  intros Hlen Hne. unfold parseStoryIntoScenes.
  destruct (Nat.eqb_spec (length storyText) 0); [lia|].
  destruct (Nat.ltb_spec (length storyText) 50); [lia|].
  cbn [orb]. rewrite primaryScenes_spec. cbn [bind].
  rewrite numberScenes_length.
  assert (H1 : 1 <= length (firstn 4 (usableSegments storyText)) <= 4).
  { rewrite length_firstn.
    destruct (usableSegments storyText); [congruence|]. cbn [length]. lia. }
  destruct (Nat.eqb_spec (length (firstn 4 (usableSegments storyText))) 0);
    [lia|].
  rewrite normalizeScenes_spec by (rewrite numberScenes_length; lia).
  now rewrite numberScenes_length.
Qed.

Lemma parseStoryIntoScenes_fallback (storyText : jsstring)
  (characterDNA : CharacterDNA) :
  50 <= length storyText ->
  usableSegments storyText = [] ->
  parseStoryIntoScenes storyText characterDNA =
  Ok (fallbackParseStory storyText characterDNA).
Proof.
  intros Hlen E. unfold parseStoryIntoScenes.
  destruct (Nat.eqb_spec (length storyText) 0); [lia|].
  destruct (Nat.ltb_spec (length storyText) 50); [lia|].
  cbn [orb]. rewrite primaryScenes_spec, E. reflexivity.
Qed.

(** ** Numbers and ids of the scenes *)

Lemma numberScenes_numbers (characterDNA : CharacterDNA) :
  forall segs k,
    map number (numberScenes characterDNA k segs) = seq k (length segs).
Proof.
  induction segs as [|[t c] segs IH]; intros k; simpl; [|rewrite IH];
    reflexivity.
Qed.

Lemma continuationScenes_numbers (characterDNA : CharacterDNA) (k : nat) :
  map number (continuationScenes characterDNA k) = seq k (5 - k).
Proof.
  unfold continuationScenes. rewrite map_map. cbn [number paddingScene].
  apply map_id.
Qed.

Lemma numberScenes_ids (characterDNA : CharacterDNA) :
  forall segs k, idsFollowNumbers (numberScenes characterDNA k segs).
Proof.
  induction segs as [|[t c] segs IH]; intros k; simpl; constructor;
    [reflexivity | apply IH].
Qed.

Lemma continuationScenes_ids (characterDNA : CharacterDNA) (k : nat) :
  idsFollowNumbers (continuationScenes characterDNA k).
Proof.
  unfold continuationScenes, idsFollowNumbers.
  apply Forall_map, Forall_forall. reflexivity.
Qed.

Lemma primary_numbers (characterDNA : CharacterDNA)
  (segs : list (jsstring * jsstring)) :
  segs <> [] ->
  map number
    (numberScenes characterDNA 1 (firstn 4 segs)
     ++ continuationScenes characterDNA (length (firstn 4 segs) + 1))
  = [1; 2; 3; 4].
Proof.
  intros Hne. rewrite map_app, numberScenes_numbers,
    continuationScenes_numbers.
  pose proof (firstn_le_length 4 segs) as Hle.
  assert (H1 : 1 <= length (firstn 4 segs)).
  { destruct segs; [congruence|]. simpl. lia. }
  assert (H4 : length (firstn 4 segs) <= 4).
  { rewrite length_firstn. lia. }
  remember (length (firstn 4 segs)) as n.
  replace (5 - (n + 1)) with (4 - n) by lia.
  replace (n + 1) with (1 + n) by lia.
  rewrite <- seq_app. replace (n + (4 - n)) with 4 by lia. reflexivity.
Qed.

(** A story tagged [fallbackParsed] is the story of the fallback
    strategy on the same text. *)
Lemma fallbackParsed_story (storyText : jsstring)
  (characterDNA : CharacterDNA) (st : Story) :
  parseStoryIntoScenes storyText characterDNA = Ok st ->
  fallbackParsed st = true ->
  st = fallbackParseStory storyText characterDNA.
Proof.
  unfold parseStoryIntoScenes.
  destruct (_ || _).
  - intros H. apply Ok_inj in H. subst st. discriminate.
  - destruct (primaryScenes_ok storyText characterDNA) as [l ->]. cbn [bind].
    destruct (length l =? 0); intros H; apply Ok_inj in H; subst st.
    + reflexivity.
    + discriminate.
Qed.

(** C3, as the code has it: when the split on markers gives at least
    one segment with a title and a content, in a text of 50 units or
    more, the story has exactly four scenes numbered 1 to 4 and
    [totalScenes = 4]: the first four segments in order, followed, when
    there are fewer than four, by continuation scenes titled
    [Scene <n>] whose content is the name followed by the fixed
    sentence; with more than four segments only the first four are
    kept.  The story of the fallback strategy is not padded, and it too
    keeps only the first four: its scenes are the first four of the
    scenes that the fallback strategy finds (all of them when there are
    at most four), and [totalScenes] counts the scenes kept.  The
    parser returns that story when the split gives no such segment, and
    every story it returns tagged [fallbackParsed] is such a story. *)
Theorem primary_story_padded_or_cut
  (storyText : jsstring) (characterDNA : CharacterDNA)
  (Hlen : 50 <= length storyText)
  (Hsome : usableSegments storyText <> []) :
  let segs := usableSegments storyText in
  exists st,
    parseStoryIntoScenes storyText characterDNA = Ok st
    /\ totalScenes st = 4
    /\ length (scenes st) = 4
    /\ map number (scenes st) = [1; 2; 3; 4]
    /\ (length segs < 4 ->
        scenes st =
        numberScenes characterDNA 1 segs
        ++ map (fun n => paddingScene n characterDNA)
             (seq (length segs + 1) (4 - length segs)))
    /\ (forall n,
          title (paddingScene n characterDNA) = js "Scene " ++ numToString n
          /\ content (paddingScene n characterDNA) =
             name characterDNA
             ++ js " continues their adventure with determination and courage."
          /\ number (paddingScene n characterDNA) = n)
    /\ (4 < length segs ->
        scenes st = numberScenes characterDNA 1 (firstn 4 segs))
    /\ (forall text',
          length (scenes (fallbackParseStory text' characterDNA)) <= 4
          /\ totalScenes (fallbackParseStory text' characterDNA)
             = length (scenes (fallbackParseStory text' characterDNA)))
    /\ (forall text',
          scenes (fallbackParseStory text' characterDNA)
          = firstn 4 (fallbackScenes text' characterDNA)
          /\ (length (fallbackScenes text' characterDNA) <= 4 ->
              scenes (fallbackParseStory text' characterDNA)
              = fallbackScenes text' characterDNA))
    /\ (forall text',
          50 <= length text' -> usableSegments text' = [] ->
          parseStoryIntoScenes text' characterDNA
          = Ok (fallbackParseStory text' characterDNA))
    /\ (forall text' st',
          parseStoryIntoScenes text' characterDNA = Ok st' ->
          fallbackParsed st' = true ->
          st' = fallbackParseStory text' characterDNA).
Proof.
  intros segs. eexists. split.
  { apply parseStoryIntoScenes_primary; assumption. }
  cbn [totalScenes scenes]. fold segs.
  pose proof (@primary_numbers characterDNA segs Hsome) as Hnum.
  split; [reflexivity|]. split.
  { rewrite <- (length_map number), Hnum. reflexivity. }
  split; [exact Hnum|]. split.
  { intros Hlt. rewrite firstn_all2 by lia. unfold continuationScenes.
    do 3 f_equal. lia. }
  split.
  { intros n. repeat split. }
  split.
  { intros Hgt. assert (E : length (firstn 4 segs) = 4).
    { rewrite length_firstn. lia. }
    rewrite E. cbn. now rewrite app_nil_r. }
  split.
  { intros text'. unfold fallbackParseStory, slice. cbn [scenes totalScenes].
    rewrite length_firstn. cbn [skipn]. split; lia. }
  split.
  { intros text'.
    assert (E : scenes (fallbackParseStory text' characterDNA)
                = firstn 4 (fallbackScenes text' characterDNA))
      by reflexivity.
    split; [exact E|]. intros Hle. rewrite E. now apply firstn_all2. }
  split.
  { intros text'. apply parseStoryIntoScenes_fallback. }
  intros text' st'. apply fallbackParsed_story.
Qed.

Lemma primary_story_padded_or_cut_witness :
  (exists st,
      parseStoryIntoScenes oneSceneText mia = Ok st
      /\ totalScenes st = 4
      /\ map title (scenes st)
         = [js "The Start"; js "Scene 2"; js "Scene 3"; js "Scene 4"])
  /\ length (fallbackScenes sixBareScenes mia) = 6
  /\ parseStoryIntoScenes sixBareScenes mia
     = Ok (fallbackParseStory sixBareScenes mia)
  /\ scenes (fallbackParseStory sixBareScenes mia)
     = firstn 4 (fallbackScenes sixBareScenes mia)
  /\ map content (scenes (fallbackParseStory sixBareScenes mia))
     = [ js "Body of part 1."; js "Body of part 2."; js "Body of part 3.";
         js "Body of part 4." ].
Proof.
  assert (Hlen : 50 <= length oneSceneText) by (vm_compute; lia).
  assert (Hsome : usableSegments oneSceneText <> [])
    by (vm_compute; discriminate).
  destruct (@primary_story_padded_or_cut oneSceneText mia Hlen Hsome)
    as (st & Hst & Htot & _ & _ & Hpad & _ & _ & _ & Hcut & Hfall & _).
  split.
  { exists st. split; [exact Hst|]. split; [exact Htot|].
    rewrite Hpad by (vm_compute; lia). vm_compute. reflexivity. }
  split; [vm_compute; reflexivity|].
  split; [apply Hfall; vm_compute; [lia | reflexivity]|].
  split; [exact (proj1 (Hcut sixBareScenes))|].
  rewrite (proj1 (Hcut sixBareScenes)). vm_compute. reflexivity.
Defined.



(** C2, at the failing input: on fifty full stops the parser returns
    the story of the fallback strategy with no scene at all and
    [totalScenes = 0], for every character. *)
Theorem fifty_dots_story_has_no_scene (characterDNA : CharacterDNA) :
  length fiftyDots = 50
  /\ parseStoryIntoScenes fiftyDots characterDNA =
     Ok {| storyTitle := adventureTitle characterDNA;
           scenes := [];
           totalScenes := 0;
           character := characterDNA;
           emergencyFallback := false;
           fallbackParsed := true |}.
Proof.
  split; [reflexivity|].
  rewrite parseStoryIntoScenes_fallback; [reflexivity | | reflexivity].
  vm_compute. lia.
Qed.

(** C4, at the failing input: on a text with one marked scene the
    story has four scenes; the first has its content as description,
    the three that padding appends have no description. *)
Theorem padding_scenes_have_no_description (characterDNA : CharacterDNA) :
  exists st s1 s2 s3 s4,
    parseStoryIntoScenes oneSceneText characterDNA = Ok st
    /\ scenes st = [s1; s2; s3; s4]
    /\ description s1 = Some (content s1)
    /\ description s2 = None
    /\ description s3 = None
    /\ description s4 = None
    /\ content s2 =
       name characterDNA
       ++ js " continues their adventure with determination and courage.".
Proof.
  assert (Hlen : 50 <= length oneSceneText) by (vm_compute; lia).
  assert (Hseg : usableSegments oneSceneText =
                 [(js "The Start",
                   js "Once upon a time there was a hero who went far away.")])
    by (vm_compute; reflexivity).
  eexists. do 4 eexists. split.
  { apply parseStoryIntoScenes_primary; [exact Hlen|].
    rewrite Hseg. discriminate. }
  rewrite Hseg. cbn [firstn numberScenes length scenes app Nat.add].
  unfold continuationScenes. cbn [Nat.sub seq map app].
  split; [reflexivity|]. repeat split.
Qed.

(** ** Texts with four marked scenes *)

Lemma segmentOf_marked (ms : MarkedScene) :
  wellMarked ms ->
  segmentOf (titleLine ms ++ [LF] ++ body ms)
  = [(trim (titleLine ms), trim (body ms))].
Proof.
  intros (_ & Hlf & Ht & Hb & _). unfold segmentOf.
  now rewrite extractScene_marked.
Qed.

Lemma segmentOf_one_line (p : jsstring) :
  ~ In LF (trim p) -> segmentOf p = [].
Proof.
  intros H. unfold segmentOf. now rewrite extractScene_one_line.
Qed.

Lemma split_sceneText (x : jsstring) (ms : MarkedScene) (rest : jsstring) :
  markerFree x -> wellMarked ms ->
  split markerRe (x ++ sceneText ms ++ rest)
  = x :: split markerRe ((titleLine ms ++ [LF] ++ body ms) ++ rest).
Proof.
  intros Hx (Hm & _). unfold sceneText.
  rewrite <- (app_assoc (marker ms)). now apply split_marked.
Qed.

Lemma usableSegments_four (pre : jsstring) (s1 s2 s3 s4 : MarkedScene) :
  markerFree pre -> ~ In LF (trim pre) ->
  wellMarked s1 -> wellMarked s2 -> wellMarked s3 -> wellMarked s4 ->
  usableSegments (fourSceneText pre s1 s2 s3 s4)
  = [ (trim (titleLine s1), trim (body s1));
      (trim (titleLine s2), trim (body s2));
      (trim (titleLine s3), trim (body s3));
      (trim (titleLine s4), trim (body s4)) ].
Proof.
  intros Hpre Hlf H1 H2 H3 H4.
  assert (F : forall ms, wellMarked ms ->
                markerFree (titleLine ms ++ [LF] ++ body ms))
    by (intros ms H; apply H).
  unfold usableSegments, fourSceneText.
  rewrite split_sceneText by auto.
  rewrite split_sceneText by auto.
  rewrite split_sceneText by auto.
  rewrite <- (app_nil_r (sceneText s4)).
  rewrite split_sceneText by auto.
  rewrite app_nil_r, split_markerFree by auto.
  cbn [flat_map].
  rewrite (segmentOf_one_line _ Hlf), !segmentOf_marked by assumption.
  reflexivity.
Qed.

(** ** Numbering in the fallback strategy *)

Lemma sorted_snoc (l : list nat) (x : nat) :
  StronglySorted lt l -> Forall (fun y => y < x) l ->
  StronglySorted lt (l ++ [x]).
Proof.
  induction 1 as [|a l Hs IH Ha]; intros Hx; cbn [app].
  - repeat constructor.
  - inversion Hx as [|? ? Hax Hlx]; subst. constructor.
    + now apply IH.
    + apply Forall_app. split; [exact Ha|]. now repeat constructor.
Qed.

Lemma sorted_firstn (n : nat) :
  forall l : list nat, StronglySorted lt l -> StronglySorted lt (firstn n l).
Proof.
  induction n as [|n IH]; intros l Hs; [constructor|].
  destruct Hs as [|a l Hs Ha]; cbn [firstn]; constructor.
  - now apply IH.
  - apply Forall_forall. intros x Hx.
    rewrite Forall_forall in Ha. apply Ha.
    rewrite <- (firstn_skipn n l). apply in_or_app. now left.
Qed.

Lemma sorted_seq (len : nat) :
  forall start, StronglySorted lt (seq start len).
Proof.
  induction len as [|len IH]; intros start; cbn [seq]; constructor.
  - apply IH.
  - apply Forall_forall. intros x Hx. apply in_seq in Hx. lia.
Qed.

Lemma numbersIncrease_firstn (n : nat) (l : list Scene) :
  numbersIncrease l -> numbersIncrease (firstn n l).
Proof.
  unfold numbersIncrease. intros H.
  rewrite <- firstn_map. exact (sorted_firstn (S n) _ H).
Qed.

Lemma idsFollowNumbers_firstn (n : nat) (l : list Scene) :
  idsFollowNumbers l -> idsFollowNumbers (firstn n l).
Proof.
  unfold idsFollowNumbers. rewrite !Forall_forall. intros H x Hx.
  apply H. rewrite <- (firstn_skipn n l). apply in_or_app. now left.
Qed.

Lemma numbersIncrease_snoc (l : list Scene) (s : Scene) :
  numbersIncrease l -> 0 < number s ->
  Forall (fun sc => number sc < number s) l ->
  numbersIncrease (l ++ [s]).
Proof.
  unfold numbersIncrease. intros Hl Hpos Hlt.
  rewrite map_app. cbn [map].
  change (StronglySorted lt ((0 :: map number l) ++ [number s])).
  apply sorted_snoc; [exact Hl|].
  constructor; [exact Hpos|]. now apply Forall_map.
Qed.

(** What [flushScene] gives under the invariant of the scan. *)
Lemma flushScene_invariant (st : ScanState) :
  scanInvariant st ->
  idsFollowNumbers (flushScene (found st) (currentScene st))
  /\ numbersIncrease (flushScene (found st) (currentScene st))
  /\ Forall (fun sc => number sc < scanCount st + 1)
       (flushScene (found st) (currentScene st)).
Proof.
  intros (Hids & Hinc & Hcur). unfold flushScene.
  destruct (currentScene st) as [s|].
  - destruct Hcur as (Hid & Hn & Hpos & Hlt).
    assert (Hlt' : Forall (fun sc => number sc < scanCount st + 1) (found st)).
    { eapply Forall_impl; [|exact Hlt]. cbn. intros; lia. }
    destruct (0 <? length (trim (content s))).
    + split; [|split].
      * apply Forall_app. split; [exact Hids|]. now repeat constructor.
      * apply numbersIncrease_snoc; rewrite ?Hn; assumption.
      * apply Forall_app. split; [exact Hlt'|].
        repeat constructor. lia.
    + auto.
  - rewrite Hcur. repeat split; repeat constructor.
Qed.

Lemma scanLine_invariant (characterDNA : CharacterDNA) (st : ScanState)
  (line : jsstring) :
  scanInvariant st -> scanInvariant (scanLine characterDNA st line).
Proof.
  intros Hinv. unfold scanLine.
  destruct (matches headerRe (trim line) || matches headerRe (trim line)).
  - destruct (flushScene_invariant _ Hinv) as (Hids & Hinc & Hlt).
    unfold scanInvariant. cbn [found currentScene scanCount number sceneId].
    repeat split; try assumption; lia.
  - destruct Hinv as (Hids & Hinc & Hcur).
    destruct (currentScene st) as [s|] eqn:E.
    + destruct (0 <? length (trim line)).
      * unfold scanInvariant.
        cbn [found currentScene scanCount appendContent number sceneId].
        auto.
      * unfold scanInvariant. rewrite E. auto.
    + unfold scanInvariant. rewrite E. auto.
Qed.

Lemma scan_invariant (characterDNA : CharacterDNA) (lines : list jsstring) :
  forall st,
    scanInvariant st ->
    scanInvariant (fold_left (scanLine characterDNA) lines st).
Proof.
  induction lines as [|line lines IH]; intros st H; cbn [fold_left];
    [exact H|].
  apply IH. now apply scanLine_invariant.
Qed.

Lemma combine_seq_numbers (l : list jsstring) :
  forall k,
    map (fun ic : nat * jsstring => fst ic + 1) (combine (seq k (length l)) l)
    = seq (k + 1) (length l).
Proof.
  induction l as [|x l IH]; intros k; [reflexivity|].
  cbn [length seq combine map fst]. f_equal. apply (IH (S k)).
Qed.

Lemma chunkScenes_numbers (characterDNA : CharacterDNA)
  (textChunks : list jsstring) :
  map number (chunkScenes characterDNA textChunks)
  = seq 1 (length textChunks).
Proof.
  unfold chunkScenes. rewrite map_map. cbn [number parsedScene].
  apply (combine_seq_numbers textChunks 0).
Qed.

Lemma chunkScenes_ids (characterDNA : CharacterDNA)
  (textChunks : list jsstring) :
  idsFollowNumbers (chunkScenes characterDNA textChunks).
Proof.
  unfold chunkScenes, idsFollowNumbers.
  apply Forall_map, Forall_forall. reflexivity.
Qed.

Lemma refreshScene_numbers (characterDNA : CharacterDNA) (l : list Scene) :
  map number (map (refreshScene characterDNA) l) = map number l.
Proof. rewrite map_map. reflexivity. Qed.

Lemma refreshScene_ids (characterDNA : CharacterDNA) (l : list Scene) :
  idsFollowNumbers l -> idsFollowNumbers (map (refreshScene characterDNA) l).
Proof.
  unfold idsFollowNumbers. intros H. apply Forall_map.
  eapply Forall_impl; [|exact H]. auto.
Qed.

(** The scenes of a story of the fallback strategy: at most four, ids
    after numbers, numbers positive and increasing. *)
Lemma fallbackParseStory_numbering (storyText : jsstring)
  (characterDNA : CharacterDNA) :
  let st := fallbackParseStory storyText characterDNA in
  idsFollowNumbers (scenes st)
  /\ numbersIncrease (scenes st)
  /\ length (scenes st) <= 4
  /\ totalScenes st = length (scenes st).
Proof.
  cbn zeta. unfold fallbackParseStory, slice. cbn [scenes totalScenes skipn].
  set (lines := filter _ _).
  set (st := fold_left _ lines _).
  assert (Hinv : scanInvariant st).
  { apply scan_invariant. repeat split; repeat constructor. }
  destruct (flushScene_invariant _ Hinv) as (Hids & Hinc & _).
  set (scs := if _ =? 0 then _ else _).
  assert (H : idsFollowNumbers scs /\ numbersIncrease scs).
  { subst scs. destruct (_ =? 0); [|auto]. split.
    - apply chunkScenes_ids.
    - unfold numbersIncrease. rewrite chunkScenes_numbers.
      apply (sorted_seq (S _) 0). }
  destruct H as [H1 H2]. rewrite Nat.sub_0_r. repeat split.
  - apply idsFollowNumbers_firstn. now apply refreshScene_ids.
  - apply numbersIncrease_firstn. unfold numbersIncrease.
    now rewrite refreshScene_numbers.
  - rewrite length_firstn. lia.
  - rewrite length_firstn. lia.
Qed.

(** ** The scenes of every story *)

Lemma parseStoryIntoScenes_numbering (storyText : jsstring)
  (characterDNA : CharacterDNA) (st : Story) :
  parseStoryIntoScenes storyText characterDNA = Ok st ->
  idsFollowNumbers (scenes st)
  /\ numbersIncrease (scenes st)
  /\ length (scenes st) <= 4
  /\ (emergencyFallback st = false -> fallbackParsed st = false ->
      map number (scenes st) = [1; 2; 3; 4]).
Proof.
  destruct (Nat.lt_ge_cases (length storyText) 50) as [Hshort|Hlong].
  - rewrite parseStoryIntoScenes_short by exact Hshort.
    intros H. apply Ok_inj in H. subst st.
    cbn [createEmergencyFallback scenes emergencyFallback]. repeat split.
    + repeat constructor.
    + unfold numbersIncrease. repeat constructor.
    + simpl. lia.
    + discriminate.
  - destruct (usableSegments storyText) as [|s0 segs] eqn:E.
    + rewrite parseStoryIntoScenes_fallback by assumption.
      intros [= <-].
      destruct (fallbackParseStory_numbering storyText characterDNA)
        as (H1 & H2 & H3 & _).
      repeat split; try assumption. discriminate.
    + assert (Hne : usableSegments storyText <> [])
        by (rewrite E; discriminate).
      rewrite parseStoryIntoScenes_primary by assumption.
      intros H. apply Ok_inj in H. subst st.
      cbn [scenes emergencyFallback fallbackParsed].
      pose proof (primary_numbers characterDNA _ Hne) as Hnum.
      repeat split.
      * apply Forall_app. split;
          [apply numberScenes_ids | apply continuationScenes_ids].
      * unfold numbersIncrease. rewrite Hnum. apply (sorted_seq 5 0).
      * rewrite <- (length_map number), Hnum. simpl. lia.
      * intros _ _. exact Hnum.
Qed.

Lemma not_in_LF (s : jsstring) : existsb (N.eqb LF) s = false -> ~ In LF s.
Proof.
  intros H Hin. assert (E : existsb (N.eqb LF) s = true).
  { apply existsb_exists. exists LF. split; [exact Hin | apply N.eqb_refl]. }
  congruence.
Qed.

Lemma plain_marker (d : N) :
  isDigit d = true -> isMarker (js "SCENE " ++ [d; 58%N]).
Proof.
  intros Hd. exists 83%N, 67%N, 69%N, 78%N, 69%N, [32%N], [d].
  repeat split; try discriminate. cbn. now rewrite Hd.
Qed.

Ltac marked_scene :=
  repeat split;
  [ apply plain_marker; reflexivity
  | apply not_in_LF; reflexivity
  | discriminate
  | discriminate
  | apply markerFreeb_sound; reflexivity ].

Lemma storyScene_wellMarked :
  wellMarked (storyScene 1) /\ wellMarked (storyScene 2)
  /\ wellMarked (storyScene 3) /\ wellMarked (storyScene 4).
Proof.
  split; [|split; [|split]]; marked_scene.
Qed.


(** C3, as stated, fails: the text holds one marker, the parser finds
    one scene by the chunk split of the fallback strategy, and the
    story is left with one scene and [totalScenes = 1]. *)
Lemma fallback_story_is_not_padded :
  50 <= length oneLineMarked
  /\ isMarker (firstn 8 oneLineMarked)
  /\ exists st,
      parseStoryIntoScenes oneLineMarked mia = Ok st
      /\ length (scenes st) = 1
      /\ totalScenes st = 1
      /\ fallbackParsed st = true.
Proof.
  split; [vm_compute; lia|]. split.
  { apply (plain_marker 49). reflexivity. }
  eexists. split; [vm_compute; reflexivity|]. repeat split.
Qed.




(** ** Texts on one line *)

Lemma trimStart_rev (s : jsstring) : trimStart (rev s) = rev (trimEnd s).
Proof. unfold trimEnd. now rewrite rev_involutive. Qed.

Lemma trim_rev (s : jsstring) : trim (rev s) = rev (trim s).
Proof.
  unfold trim. rewrite trimStart_rev.
  unfold trimEnd at 1. rewrite rev_involutive.
  fold (trimStart (trimEnd s)). now rewrite trimStart_trimEnd.
Qed.

Lemma trim_cons_space (c : N) (s : jsstring) :
  isWhiteSpace c = true -> trim (c :: s) = trim s.
Proof. intros H. unfold trim, trimStart. cbn [dropWhile]. now rewrite H. Qed.

Lemma trim_cons_solid (c : N) (s : jsstring) :
  isWhiteSpace c = false -> trim (c :: s) = trimEnd (c :: s).
Proof. intros H. unfold trim, trimStart. cbn [dropWhile]. now rewrite H. Qed.

Lemma trim_in_trimEnd (s : jsstring) : incl (trim s) (trimEnd s).
Proof.
  unfold trim. rewrite <- trimStart_trimEnd. apply trimStart_incl.
Qed.

Lemma trimEnd_incl_cons (c : N) (s : jsstring) :
  incl (trimEnd s) (trimEnd (c :: s)).
Proof.
  rewrite trimEnd_cons. destruct (trimEnd s) as [|d t].
  - intros x [].
  - apply incl_tl, incl_refl.
Qed.

Lemma trim_incl_cons (c : N) (p : jsstring) : incl (trim p) (trim (c :: p)).
Proof.
  destruct (isWhiteSpace c) eqn:Hc.
  - rewrite trim_cons_space by exact Hc. apply incl_refl.
  - rewrite trim_cons_solid by exact Hc.
    eapply incl_tran; [apply trim_in_trimEnd | apply trimEnd_incl_cons].
Qed.

Lemma trim_incl_app_l (a p : jsstring) : incl (trim p) (trim (a ++ p)).
Proof.
  induction a as [|c a IH]; [apply incl_refl|].
  cbn [app]. eapply incl_tran; [exact IH | apply trim_incl_cons].
Qed.

Lemma trim_incl_app_r (p b : jsstring) : incl (trim p) (trim (p ++ b)).
Proof.
  intros x Hx. apply in_rev. rewrite <- trim_rev, rev_app_distr.
  apply trim_incl_app_l. rewrite trim_rev.
  exact (proj1 (in_rev (trim p) x) Hx).
Qed.

(** The trimmed form of a stretch of a text lies within the trimmed
    text. *)
Lemma trim_incl_factor (a p b : jsstring) :
  incl (trim p) (trim (a ++ p ++ b)).
Proof.
  eapply incl_tran; [apply (trim_incl_app_r p b) | apply trim_incl_app_l].
Qed.

Lemma split_fuel_factor (r : list atom) :
  forall fuel s p,
    In p (split_fuel r fuel s) -> exists a b, s = a ++ p ++ b.
Proof.
  induction fuel as [|fuel IH]; intros s p; cbn [split_fuel].
  - intros [<-|[]]. exists [], []. now rewrite app_nil_r.
  - destruct (find_sep r s) as [[b a]|] eqn:E.
    + destruct (find_sep_app _ _ _ _ E) as [m [-> _]].
      intros [<-|Hin].
      * exists [], (m ++ a). reflexivity.
      * destruct (IH _ _ Hin) as [a1 [b1 ->]].
        exists (b ++ m ++ a1), b1. now rewrite <- !app_assoc.
    + intros [<-|[]]. exists [], []. now rewrite app_nil_r.
Qed.

Lemma usableSegments_one_line (storyText : jsstring) :
  ~ In LF (trim storyText) -> usableSegments storyText = [].
Proof.
  intros Hlf. unfold usableSegments, split.
  assert (H : forall p, In p (split_fuel markerRe (length storyText) storyText)
                        -> segmentOf p = []).
  { intros p Hp. apply segmentOf_one_line. intros Hin. apply Hlf.
    destruct (split_fuel_factor _ _ _ _ Hp) as [a [b E]].
    rewrite E. now apply trim_incl_factor. }
  induction (split_fuel markerRe (length storyText) storyText) as [|p l IH];
    [reflexivity|].
  cbn [flat_map]. rewrite (H p) by now left.
  apply IH. intros q Hq. apply H. now right.
Qed.

Lemma trimEnd_nil_cons (c : N) (s : jsstring) :
  trimEnd (c :: s) = [] -> isWhiteSpace c = true /\ trimEnd s = [].
Proof.
  rewrite trimEnd_cons. destruct (trimEnd s); [|discriminate].
  destruct (isWhiteSpace c); [auto | discriminate].
Qed.

Lemma solidLine_cons_space (c : N) (l : jsstring) :
  isWhiteSpace c = true -> solidLine (c :: l) = solidLine l.
Proof. intros H. unfold solidLine. now rewrite trim_cons_space. Qed.

(** A text that is all white space has no line of substance. *)
Lemma lines_of_space (s : jsstring) :
  trimEnd s = [] -> filter solidLine (splitOn LF s) = [].
Proof.
  induction s as [|c s IH]; [reflexivity|].
  intros H. apply trimEnd_nil_cons in H as [Hc Hs].
  cbn [splitOn]. destruct (c =? LF)%N.
  - cbn [filter]. now rewrite (IH Hs).
  - destruct (splitOn_cons LF s) as [l [ls E]]. rewrite E in *.
    specialize (IH Hs). cbn [filter] in *.
    rewrite solidLine_cons_space by exact Hc.
    destruct (solidLine l); [discriminate | exact IH].
Qed.

(** Once trimmed at the end a text holds no line feed: after its first
    line there is only white space. *)
Lemma later_lines_of_space (s : jsstring) :
  ~ In LF (trimEnd s) ->
  filter solidLine (tl (splitOn LF s)) = [].
Proof.
  induction s as [|c s IH]; [reflexivity|].
  intros H. cbn [splitOn]. destruct (N.eqb_spec c LF) as [->|Hne].
  - cbn [tl]. apply lines_of_space.
    rewrite trimEnd_cons in H. destruct (trimEnd s); [reflexivity|].
    exfalso. apply H. now left.
  - destruct (splitOn_cons LF s) as [l [ls E]]. rewrite E in *.
    cbn [tl] in *. apply IH. intros Hin. apply H.
    now apply trimEnd_incl_cons.
Qed.

(** At most one line of a text has substance when the trimmed text
    holds no line feed. *)
Lemma one_solid_line (s : jsstring) :
  ~ In LF (trim s) -> length (filter solidLine (splitOn LF s)) <= 1.
Proof.
  induction s as [|c s IH]; [simpl; lia|].
  intros H. destruct (isWhiteSpace c) eqn:Hc.
  - rewrite trim_cons_space in H by exact Hc. specialize (IH H).
    cbn [splitOn]. destruct (c =? LF)%N.
    + exact IH.
    + destruct (splitOn_cons LF s) as [l [ls E]]. rewrite E in *.
      cbn [filter] in *. rewrite solidLine_cons_space by exact Hc.
      destruct (solidLine l); exact IH.
  - rewrite trim_cons_solid in H by exact Hc.
    pose proof (later_lines_of_space (c :: s) H) as L.
    destruct (splitOn_cons LF (c :: s)) as [l [ls E]]. rewrite E in *.
    cbn [tl filter] in *. destruct (solidLine l); cbn [length]; rewrite L;
      simpl; lia.
Qed.

(** On at most one line the scan finds no scene: a header line opens a
    scene that gets no content. *)
Lemma scan_one_line (storyText : jsstring) (characterDNA : CharacterDNA) :
  ~ In LF (trim storyText) ->
  let lines :=
    filter (fun line => 0 <? length (trim line)) (splitOn LF storyText) in
  let st :=
    fold_left (scanLine characterDNA) lines
      {| found := []; currentScene := None; scanCount := 0 |} in
  flushScene (found st) (currentScene st) = [].
Proof.
  intros Hlf. cbn zeta. fold solidLine.
  pose proof (one_solid_line storyText Hlf) as H.
  destruct (filter solidLine (splitOn LF storyText)) as [|line [|l2 ls]];
    [reflexivity| |simpl in H; lia].
  cbn [fold_left]. unfold scanLine.
  destruct (matches headerRe (trim line) || matches headerRe (trim line)).
  - reflexivity.
  - cbn [currentScene]. reflexivity.
Qed.

Lemma refreshScene_chunkScenes (characterDNA : CharacterDNA)
  (textChunks : list jsstring) :
  map (refreshScene characterDNA) (chunkScenes characterDNA textChunks)
  = chunkScenes characterDNA textChunks.
Proof.
  unfold chunkScenes. rewrite map_map. reflexivity.
Qed.

Lemma dropWhile_head (p : N -> bool) (s r : jsstring) (c : N) :
  dropWhile p s = c :: r -> p c = false.
Proof.
  induction s as [|a s IH]; simpl; [discriminate|].
  destruct (p a) eqn:E; [exact IH|]. now intros [= <- _].
Qed.

Lemma trim_app_nonempty (x y : jsstring) : trim x <> [] -> trim (x ++ y) <> [].
Proof.
  intros H. apply trim_nonempty_start in H.
  unfold trim, trimStart in *. rewrite dropWhile_app_keep by exact H.
  destruct (dropWhile isWhiteSpace x) as [|c r] eqn:E; [congruence|].
  apply dropWhile_head in E. cbn [app]. rewrite trimEnd_cons.
  destruct (trimEnd (r ++ y)); [rewrite E|]; discriminate.
Qed.

Lemma join_cons (sep x : jsstring) (g : list jsstring) :
  exists y, join sep (x :: g) = x ++ y.
Proof.
  destruct g as [|x' g]; cbn [join].
  - exists []. now rewrite app_nil_r.
  - eauto.
Qed.

Lemma chunkText_of_group (g : list jsstring) :
  Forall (fun s => (0 <? length (trim s)) = true) g -> g <> [] ->
  trim (join (js ". ") g) <> [].
Proof.
  intros Hg Hne. destruct g as [|x g]; [congruence|].
  inversion Hg as [|? ? Hx _]; subst.
  destruct (join_cons (js ". ") x g) as [y ->].
  apply trim_app_nonempty. now apply length_pos_iff.
Qed.

Lemma slice_incl {A} (a b : nat) (l : list A) : incl (slice a b l) l.
Proof.
  unfold slice. intros x Hx.
  rewrite <- (firstn_skipn a l). apply in_or_app. right.
  rewrite <- (firstn_skipn (b - a) (skipn a l)). apply in_or_app. now left.
Qed.

Lemma chunkAt_group (sentences : list jsstring) (chunkSize i : nat) :
  Forall (fun s => (0 <? length (trim s)) = true) sentences ->
  chunkAt sentences chunkSize i =
  if nonEmpty (chunkGroup sentences chunkSize i)
  then [chunkText (chunkGroup sentences chunkSize i)]
  else [].
Proof.
  intros Hs. unfold chunkAt. cbn zeta. fold (chunkGroup sentences chunkSize i).
  destruct (chunkGroup sentences chunkSize i) as [|x g] eqn:E.
  - reflexivity.
  - assert (Hg : Forall (fun s => (0 <? length (trim s)) = true) (x :: g)).
    { rewrite <- E. rewrite Forall_forall in *. intros s Hin.
      apply Hs. unfold chunkGroup in Hin. now apply slice_incl in Hin. }
    pose proof (@chunkText_of_group (x :: g) Hg ltac:(discriminate)) as Hne.
    apply length_pos_iff in Hne. rewrite Hne. reflexivity.
Qed.

Lemma chunks_of_groups (sentences : list jsstring) (chunkSize : nat)
  (idxs : list nat) :
  Forall (fun s => (0 <? length (trim s)) = true) sentences ->
  flat_map (chunkAt sentences chunkSize) idxs =
  map chunkText
    (filter nonEmpty (map (chunkGroup sentences chunkSize) idxs)).
Proof.
  intros Hs. induction idxs as [|i idxs IH]; [reflexivity|].
  cbn [flat_map map filter]. rewrite chunkAt_group by exact Hs.
  destruct (nonEmpty (chunkGroup sentences chunkSize i)); cbn [map app];
    now rewrite IH.
Qed.

Lemma concat_filter_nonEmpty {A} (ls : list (list A)) :
  concat (filter nonEmpty ls) = concat ls.
Proof.
  induction ls as [|l ls IH]; [reflexivity|].
  cbn [filter concat]. destruct l; cbn [nonEmpty concat app]; now rewrite IH.
Qed.

Lemma chunkGroup_firstn (sentences : list jsstring) (chunkSize i : nat) :
  chunkGroup sentences chunkSize i
  = firstn chunkSize (skipn (i * chunkSize) sentences).
Proof.
  unfold chunkGroup, slice.
  destruct (Nat.le_gt_cases (i * chunkSize + chunkSize) (length sentences)).
  - f_equal. lia.
  - rewrite !firstn_all2; [reflexivity| |]; rewrite length_skipn; lia.
Qed.

Lemma concat_chunks {A} (chunkSize : nat) :
  forall k (l : list A),
    length l <= k * chunkSize ->
    concat (map (fun i => firstn chunkSize (skipn (i * chunkSize) l))
              (seq 0 k)) = l.
Proof.
  induction k as [|k IH]; intros l Hl.
  - destruct l; [reflexivity | simpl in Hl; lia].
  - cbn [seq map concat]. rewrite <- seq_shift, map_map.
    cbn [Nat.mul skipn].
    transitivity (firstn chunkSize l ++ skipn chunkSize l);
      [|apply firstn_skipn].
    f_equal.
    rewrite <- (IH (skipn chunkSize l))
      by (rewrite length_skipn; cbn [Nat.mul] in Hl; lia).
    f_equal. apply map_ext. intros i.
    rewrite skipn_skipn. do 2 f_equal. lia.
Qed.

Lemma ceilDiv_bound (n : nat) : n <= 4 * ceilDiv n 4.
Proof.
  unfold ceilDiv. pose proof (Nat.div_mod_eq (n + (4 - 1)) 4) as E.
  pose proof (Nat.mod_upper_bound (n + (4 - 1)) 4). lia.
Qed.

(** The chunks are the texts of the non-empty groups, and the groups
    together are the sentences, in order. *)
Lemma splitTextIntoChunks_groups (text : jsstring) :
  exists groups,
    splitTextIntoChunks text 4 = map chunkText groups
    /\ concat groups = sentencesOf text
    /\ Forall (fun g => g <> []) groups
    /\ length groups <= 4.
Proof.
  set (sentences := sentencesOf text).
  set (chunkSize := ceilDiv (length sentences) 4).
  assert (Hs : Forall (fun s => (0 <? length (trim s)) = true) sentences).
  { apply Forall_forall. intros s Hin. unfold sentences, sentencesOf in Hin.
    now apply filter_In in Hin. }
  exists (filter nonEmpty (map (chunkGroup sentences chunkSize) (seq 0 4))).
  repeat split.
  - unfold splitTextIntoChunks. cbn zeta. now apply chunks_of_groups.
  - rewrite concat_filter_nonEmpty.
    rewrite (map_ext _ _ (fun i => chunkGroup_firstn sentences chunkSize i)).
    apply concat_chunks. unfold chunkSize.
    pose proof (ceilDiv_bound (length sentences)). lia.
  - apply Forall_forall. intros g Hg. apply filter_In in Hg as [_ Hg].
    destruct g; [discriminate | discriminate].
  - eapply Nat.le_trans; [apply filter_length_le|].
    now rewrite length_map, length_seq.
Qed.

Lemma combine_seq_snd (l : list jsstring) :
  forall k,
    map (fun ic : nat * jsstring => snd ic) (combine (seq k (length l)) l) = l.
Proof.
  induction l as [|x l IH]; intros k; [reflexivity|].
  cbn [length seq combine map snd]. f_equal. apply IH.
Qed.

Lemma chunkScenes_contents (characterDNA : CharacterDNA)
  (textChunks : list jsstring) :
  map content (chunkScenes characterDNA textChunks) = textChunks.
Proof.
  unfold chunkScenes. rewrite map_map. cbn [content parsedScene].
  apply combine_seq_snd.
Qed.

Lemma chunkScenes_titles (characterDNA : CharacterDNA)
  (textChunks : list jsstring) :
  map title (chunkScenes characterDNA textChunks)
  = map (fun n => js "Scene " ++ numToString n) (seq 1 (length textChunks)).
Proof.
  unfold chunkScenes. rewrite map_map. cbn [title parsedScene].
  pose proof (combine_seq_numbers textChunks 0) as E.
  cbn [Nat.add] in E. rewrite <- E, map_map. reflexivity.
Qed.

Lemma chunkScenes_length (characterDNA : CharacterDNA)
  (textChunks : list jsstring) :
  length (chunkScenes characterDNA textChunks) = length textChunks.
Proof.
  rewrite <- (length_map number), chunkScenes_numbers. apply length_seq.
Qed.

(** On a text of one line the fallback strategy gives the scenes of
    the chunk split. *)
Lemma fallbackParseStory_one_line (storyText : jsstring)
  (characterDNA : CharacterDNA) :
  ~ In LF (trim storyText) ->
  fallbackParseStory storyText characterDNA =
  {| storyTitle := adventureTitle characterDNA;
     scenes := chunkScenes characterDNA (splitTextIntoChunks storyText 4);
     totalScenes := length (splitTextIntoChunks storyText 4);
     character := characterDNA;
     emergencyFallback := false;
     fallbackParsed := true |}.
Proof.
  intros Hlf. unfold fallbackParseStory.
  pose proof (scan_one_line storyText characterDNA Hlf) as Hscan.
  cbn zeta in Hscan. rewrite Hscan. cbn [length Nat.eqb].
  rewrite refreshScene_chunkScenes.
  destruct (splitTextIntoChunks_groups storyText)
    as (groups & Hch & _ & _ & Hlen).
  assert (H4 : length (chunkScenes characterDNA
                         (splitTextIntoChunks storyText 4)) <= 4).
  { rewrite chunkScenes_length, Hch, length_map. exact Hlen. }
  unfold slice. cbn [skipn Nat.sub]. rewrite firstn_all2 by exact H4.
  rewrite Nat.min_l by exact H4. now rewrite chunkScenes_length.
Qed.

(** C8, as the code has it: a text of 50 units or more whose trimmed
    form holds no line feed (one line, with or without markers), goes
    to the equal-chunk split of the fallback strategy.  The story is tagged [fallbackParsed], has
    at most four scenes, numbered from 1 and titled [Scene <n>], and
    [totalScenes] counts them.  The sentences of the text (its pieces
    between runs of full stops, exclamation and question marks that are
    not blank) fall, in order, into as many non-empty groups as there
    are scenes, each sentence in one group; the content of a scene is
    its group joined with a full stop and a space, trimmed, and ended
    with a full stop. *)
Theorem unbroken_text_is_chunked
  (storyText : jsstring) (characterDNA : CharacterDNA)
  (Hlen : 50 <= length storyText) (Hlf : ~ In LF (trim storyText)) :
  exists st groups,
    parseStoryIntoScenes storyText characterDNA = Ok st
    /\ fallbackParsed st = true
    /\ length (scenes st) <= 4
    /\ totalScenes st = length (scenes st)
    /\ concat groups = sentencesOf storyText
    /\ Forall (fun g => g <> []) groups
    /\ map content (scenes st) = map chunkText groups
    /\ map title (scenes st)
       = map (fun n => js "Scene " ++ numToString n) (seq 1 (length groups))
    /\ map number (scenes st) = seq 1 (length groups).
Proof.
  destruct (splitTextIntoChunks_groups storyText)
    as (groups & Hch & Hcat & Hne & Hle).
  eexists. exists groups. split.
  { rewrite parseStoryIntoScenes_fallback;
      [|exact Hlen | now apply usableSegments_one_line].
    now rewrite fallbackParseStory_one_line. }
  cbn [fallbackParsed scenes totalScenes].
  rewrite chunkScenes_length, chunkScenes_contents, chunkScenes_titles,
    chunkScenes_numbers, Hch, length_map.
  repeat split; assumption.
Qed.

Lemma unbroken_text_is_chunked_witness :
  exists st,
    parseStoryIntoScenes plainParagraph mia = Ok st
    /\ fallbackParsed st = true
    /\ map content (scenes st)
       = [ js "Mia woke up early.  She packed a bag.";
           js "Was the map real.  It was.";
           js "She left at dawn." ]
    /\ sentencesOf plainParagraph
       = [ js "Mia woke up early"; js " She packed a bag";
           js " Was the map real"; js " It was"; js " She left at dawn" ].
Proof.
  assert (Hlen : 50 <= length plainParagraph) by (vm_compute; lia).
  assert (Hlf : ~ In LF (trim plainParagraph))
    by (apply not_in_LF; reflexivity).
  destruct (unbroken_text_is_chunked plainParagraph mia Hlen Hlf)
    as (st & groups & Hst & Hflag & _).
  exists st. split; [exact Hst|]. split; [exact Hflag|].
  assert (E : parseStoryIntoScenes plainParagraph mia
              = Ok (fallbackParseStory plainParagraph mia))
    by (vm_compute; reflexivity).
  rewrite E in Hst. apply Ok_inj in Hst. subst st.
  split; vm_compute; reflexivity.
Defined.

(** C8, as stated, fails: the text holds no marker and two lines; the
    primary strategy takes the first line as title and the second as
    content, pads to four scenes, and the story is not tagged
    [fallbackParsed]. *)
Lemma two_plain_lines_not_chunked :
  50 <= length twoPlainLines
  /\ markerFree twoPlainLines
  /\ exists st,
      parseStoryIntoScenes twoPlainLines mia = Ok st
      /\ fallbackParsed st = false
      /\ map title (scenes st)
         = [ js "First line of the story goes here"; js "Scene 2";
             js "Scene 3"; js "Scene 4" ]
      /\ map content (firstn 1 (scenes st))
         = [js "Second line of the story goes here"].
Proof.
  split; [vm_compute; lia|]. split.
  { apply markerFreeb_sound. reflexivity. }
  eexists. split; [vm_compute; reflexivity|].
  repeat split.
Qed.

(** * Further properties *)

(** ** The attempts of generateStory *)

Lemma world_eta (w : World) :
  {| calls := calls w + 0; delays := delays w ++ repeat retryDelay 0 |} = w.
Proof.
  destruct w as [n ds]. cbn [calls delays repeat].
  now rewrite Nat.add_0_r, app_nil_r.
Qed.

(** [j] calls in a row that fail retryably, none of them at the last
    attempt, take the loop [j] rounds further, with [j] delays. *)
Lemma attemptLoop_retries (client : Client) (genre_ : jsstring)
  (characterDNA : CharacterDNA) :
  forall j fuel attempt_ w,
    j <= fuel -> attempt_ + j <= maxRetries ->
    (forall i, i < j -> failsRetryably client (calls w + i)) ->
    attemptLoop client genre_ characterDNA fuel attempt_ w =
    attemptLoop client genre_ characterDNA (fuel - j) (attempt_ + j)
      {| calls := calls w + j; delays := delays w ++ repeat retryDelay j |}.
Proof.
  induction j as [|j IH]; intros fuel attempt_ w Hf Ha Hfail.
  - now rewrite world_eta, Nat.sub_0_r, Nat.add_0_r.
  - destruct fuel as [|fuel]; [lia|].
    destruct (Hfail 0 ltac:(lia)) as [error [Hrace Hretry]].
    rewrite Nat.add_0_r in Hrace.
    cbn [attemptLoop]. rewrite Hrace, Hretry.
    unfold maxRetries in *.
    destruct (Nat.eqb_spec attempt_ 3) as [E|_]; [lia|].
    cbn [orb negb calls delays].
    rewrite IH.
    + cbn [calls delays Nat.sub repeat].
      replace (attempt_ + 1 + j) with (attempt_ + S j) by lia.
      replace (calls w + 1 + j) with (calls w + S j) by lia.
      now rewrite <- app_assoc.
    + lia.
    + lia.
    + intros i Hi. cbn [calls].
      replace (calls w + 1 + i) with (calls w + S i) by lia.
      apply Hfail. lia.
Qed.

(** X1: when the first [k] calls (at most two) fail retryably and the
    next call answers, [generateStory] returns at attempt [k + 1] a
    result with [success = true] whose raw text is the answer and whose
    story is what the parser makes of it, after [k + 1] calls and [k]
    delays of two seconds. *)
Theorem generateStory_returns_first_answer
  (client : Client) (genre_ : jsstring) (characterDNA : CharacterDNA)
  (w : World) (k : nat) (text : jsstring)
  (Hk : k < 3)
  (Hfail : forall i, i < k -> failsRetryably client (calls w + i))
  (Hanswer : client (calls w + k) = Responds text) :
  exists r,
    generateStory client genre_ characterDNA w =
    (Ok (Some r),
     {| calls := calls w + k + 1;
        delays := delays w ++ repeat 2000%N k |})
    /\ success r = true
    /\ attempt (metadata r) = k + 1
    /\ rawText r = text
    /\ parseStoryIntoScenes text characterDNA = Ok (story r).
Proof.
  unfold generateStory.
  rewrite (attemptLoop_retries client genre_ characterDNA k)
    by (unfold maxRetries; auto; lia).
  unfold maxRetries. destruct (3 - k) as [|fuel] eqn:E; [lia|].
  cbn [attemptLoop calls delays]. rewrite Hanswer. cbn [raceWithTimeout].
  destruct (parseStoryIntoScenes_total text characterDNA) as [st Hst].
  rewrite Hst. eexists. split; [reflexivity|].
  cbn. repeat split; auto; lia.
Qed.

Lemma generateStory_returns_first_answer_witness :
  exists r,
    generateStory slowThenAnswers (js "fantasy") mia freshWorld =
    (Ok (Some r), {| calls := 2; delays := [2000%N] |})
    /\ attempt (metadata r) = 2
    /\ rawText r = oneSceneText.
Proof.
  destruct (generateStory_returns_first_answer slowThenAnswers
              (js "fantasy") mia freshWorld 1 oneSceneText)
    as (r & Hr & _ & Ha & Ht & _).
  - lia.
  - intros i Hi. assert (i = 0) by lia. subst i.
    eexists. split; reflexivity.
  - reflexivity.
  - exists r. split; [exact Hr|]. split; assumption.
Defined.

(** X2: when the first [k] calls (at most two) fail retryably and the
    next call fails with an error that is not retryable, or is the
    third call, [generateStory] throws: the message holds the number of
    attempts [k + 1] and the message of that last failure; the client
    was called [k + 1] times and [k] delays were waited. *)
Theorem generateStory_throws_at_last_failure
  (client : Client) (genre_ : jsstring) (characterDNA : CharacterDNA)
  (w : World) (k : nat) (error : JsError)
  (Hk : k < 3)
  (Hfail : forall i, i < k -> failsRetryably client (calls w + i))
  (Hlast : raceWithTimeout (client (calls w + k)) = Throw error)
  (Hstop : k = 2 \/ isRetryableError error = false) :
  generateStory client genre_ characterDNA w =
  (Throw (Error (js "Story generation failed after " ++ numToString (k + 1)
                 ++ js " attempts: " ++ message error)),
   {| calls := calls w + k + 1;
      delays := delays w ++ repeat 2000%N k |}).
Proof.
  unfold generateStory.
  rewrite (attemptLoop_retries client genre_ characterDNA k)
    by (unfold maxRetries; auto; lia).
  unfold maxRetries. destruct (3 - k) as [|fuel] eqn:E; [lia|].
  cbn [attemptLoop calls delays]. rewrite Hlast.
  assert (Hcond :
            (1 + k =? maxRetries) || negb (isRetryableError error) = true).
  { destruct Hstop as [->| ->]; [reflexivity|]. apply orb_true_r. }
  rewrite Hcond. unfold terminalError.
  replace (1 + k) with (k + 1) by lia. reflexivity.
Qed.

Lemma generateStory_throws_at_last_failure_witness :
  generateStory silent (js "fantasy") mia freshWorld =
  (Throw (Error (js "Story generation failed after 3 attempts: Gemini API request timed out after 45 seconds")),
   {| calls := 3; delays := [2000%N; 2000%N] |})
  /\ generateStory overloadedThenRefused (js "fantasy") mia freshWorld =
     (Throw (Error (js "Story generation failed after 2 attempts: API key not valid")),
      {| calls := 2; delays := [2000%N] |}).
Proof.
  split.
  - refine (generateStory_throws_at_last_failure silent (js "fantasy") mia
              freshWorld 2 _ _ _ eq_refl _).
    + lia.
    + intros i Hi. eexists. split; reflexivity.
    + now left.
  - refine (generateStory_throws_at_last_failure overloadedThenRefused
              (js "fantasy") mia freshWorld 1 _ _ _ eq_refl _).
    + lia.
    + intros i Hi. assert (i = 0) by lia. subst i.
      eexists. split; reflexivity.
    + now right.
Defined.

Lemma attemptLoop_bounds (client : Client) (genre_ : jsstring)
  (characterDNA : CharacterDNA) :
  forall fuel attempt_ w,
    attempt_ + fuel = maxRetries + 1 -> 1 <= fuel ->
    let res := attemptLoop client genre_ characterDNA fuel attempt_ w in
    fst res <> Ok None
    /\ calls w < calls (snd res) <= calls w + fuel
    /\ delays (snd res) =
       delays w ++ repeat retryDelay (calls (snd res) - calls w - 1).
Proof.
  induction fuel as [|fuel IH]; intros attempt_ w Ha Hf; [lia|].
  cbn zeta. cbn [attemptLoop].
  destruct (raceWithTimeout (client (calls w))) as [storyText|error].
  - cbn [fst snd calls delays]. split; [discriminate|]. split; [lia|].
    replace (calls w + 1 - calls w - 1) with 0 by lia.
    cbn [repeat]. now rewrite app_nil_r.
  - destruct (Nat.eqb_spec attempt_ maxRetries) as [E|E]; cbn [orb].
    + cbn [fst snd calls delays]. split; [discriminate|]. split; [lia|].
      replace (calls w + 1 - calls w - 1) with 0 by lia.
      cbn [repeat]. now rewrite app_nil_r.
    + destruct (isRetryableError error); cbn [negb].
      * unfold maxRetries in *.
        specialize (IH (attempt_ + 1)
                      {| calls := calls w + 1;
                         delays := delays w ++ [retryDelay] |}
                      ltac:(lia) ltac:(lia)).
        cbn zeta in IH. cbn [calls delays] in IH |- *.
        destruct IH as (H1 & H2 & H3).
        split; [exact H1|]. split; [lia|].
        rewrite H3, <- app_assoc. f_equal.
        replace (calls (snd (attemptLoop client genre_ characterDNA fuel
                               (attempt_ + 1)
                               {| calls := calls w + 1;
                                  delays := delays w ++ [retryDelay] |}))
                 - calls w - 1)
          with (S (calls (snd (attemptLoop client genre_ characterDNA fuel
                               (attempt_ + 1)
                               {| calls := calls w + 1;
                                  delays := delays w ++ [retryDelay] |}))
                   - (calls w + 1) - 1)) by lia.
        reflexivity.
      * cbn [fst snd calls delays]. split; [discriminate|]. split; [lia|].
        replace (calls w + 1 - calls w - 1) with 0 by lia.
        cbn [repeat]. now rewrite app_nil_r.
Qed.

(** X3: whatever the model client does, [generateStory] ends with a
    result or an error (its loop never runs out without a [return] or a
    [throw]) and calls the client at least once and at most three
    times; the delays it waits are of two seconds each and one fewer
    than the calls it makes, so at most two. *)
Theorem generateStory_calls_and_delays
  (client : Client) (genre_ : jsstring) (characterDNA : CharacterDNA)
  (w : World) :
  let res := generateStory client genre_ characterDNA w in
  fst res <> Ok None
  /\ calls w < calls (snd res) <= calls w + 3
  /\ delays (snd res) =
     delays w ++ repeat 2000%N (calls (snd res) - calls w - 1).
Proof.
  apply (attemptLoop_bounds client genre_ characterDNA 3 1 w);
    unfold maxRetries; lia.
Qed.

Lemma attemptLoop_result (client : Client) (genre_ : jsstring)
  (characterDNA : CharacterDNA) :
  forall fuel attempt_ w r w',
    attemptLoop client genre_ characterDNA fuel attempt_ w
    = (Ok (Some r), w') ->
    exists j,
      j < fuel
      /\ calls w' = calls w + j + 1
      /\ attempt (metadata r) = attempt_ + j
      /\ client (calls w + j) = Responds (rawText r)
      /\ success r = true
      /\ parseStoryIntoScenes (rawText r) characterDNA = Ok (story r)
      /\ genre (metadata r) = genre_
      /\ metaCharacter (metadata r) = name characterDNA
      /\ estimatedReadTime (metadata r) = ceilDiv (length (rawText r)) 1000.
Proof.
  induction fuel as [|fuel IH]; intros attempt_ w r w'; cbn [attemptLoop];
    [discriminate|].
  destruct (client (calls w)) as [text|m|] eqn:Hc; cbn [raceWithTimeout].
  - intros H. injection H as Hr Hw. subst r w'.
    exists 0. cbn [calls rawText successResult metadata attempt success
                   story genre metaCharacter estimatedReadTime].
    rewrite !Nat.add_0_r. repeat split; auto; try lia.
    destruct (parseStoryIntoScenes_total text characterDNA) as [st ->].
    reflexivity.
  - destruct (_ || _); [discriminate|]. intros H.
    destruct (IH _ _ _ _ H) as (j & Hj & Hcalls & Hatt & Hresp & Hrest).
    cbn [calls] in *. exists (S j).
    replace (calls w + S j) with (calls w + 1 + j) by lia.
    repeat split; try apply Hrest; auto; lia.
  - destruct (_ || _); [discriminate|]. intros H.
    destruct (IH _ _ _ _ H) as (j & Hj & Hcalls & Hatt & Hresp & Hrest).
    cbn [calls] in *. exists (S j).
    replace (calls w + S j) with (calls w + 1 + j) by lia.
    repeat split; try apply Hrest; auto; lia.
Qed.

(** X4: every result that [generateStory] returns has [success = true]
    and an attempt number from 1 to 3 that counts the calls made; its
    raw text is the answer of the last call, unchanged; its story is
    what the parser returns on that text (the emergency story built in
    the [catch] block of [generateStory] never replaces it); the
    estimated read time is the length of the text divided by 1000,
    rounded up. *)
Theorem generateStory_result_is_parse_of_last_answer
  (client : Client) (genre_ : jsstring) (characterDNA : CharacterDNA)
  (w w' : World) (r : GenerationResult)
  (Hret : generateStory client genre_ characterDNA w = (Ok (Some r), w')) :
  success r = true
  /\ 1 <= attempt (metadata r) <= 3
  /\ calls w' = calls w + attempt (metadata r)
  /\ client (calls w' - 1) = Responds (rawText r)
  /\ parseStoryIntoScenes (rawText r) characterDNA = Ok (story r)
  /\ genre (metadata r) = genre_
  /\ metaCharacter (metadata r) = name characterDNA
  /\ estimatedReadTime (metadata r) = ceilDiv (length (rawText r)) 1000.
Proof.
  apply attemptLoop_result in Hret
    as (j & Hj & Hcalls & Hatt & Hresp & Hs & Hrest).
  unfold maxRetries in Hj.
  split; [exact Hs|]. split; [lia|]. split; [lia|]. split.
  - replace (calls w' - 1) with (calls w + j) by lia. exact Hresp.
  - exact Hrest.
Qed.

Lemma generateStory_result_is_parse_of_last_answer_witness :
  success shortAnswerResult = true
  /\ attempt (metadata shortAnswerResult) = 1
  /\ parseStoryIntoScenes (rawText shortAnswerResult) mia
     = Ok (story shortAnswerResult).
Proof.
  destruct (generateStory_result_is_parse_of_last_answer shortAnswer
              (js "fantasy") mia freshWorld {| calls := 1; delays := [] |}
              shortAnswerResult eq_refl)
    as (Hs & _ & _ & _ & Hp & _).
  split; [exact Hs|]. split; [reflexivity | exact Hp].
Defined.

(** ** The availability probe *)

(** X5: the [retryable] flag of the availability report is the retry
    policy of [generateStory].  Let the probe report a failure with
    message [error_] and flag [retryable_] (failures carry a message,
    as everywhere in this model), and let the first call of
    [generateStory] fail with that same message.  When the flag is
    [false], [generateStory] gives up at once: it throws after one
    attempt, one call and no delay.  When the flag is [true], it waits
    two seconds and calls the client a second time.  A probe whose
    timer fired is reported with the flag [true]. *)
Theorem availability_flag_is_the_retry_policy
  (probe client : Client) (genre_ : jsstring) (characterDNA : CharacterDNA)
  (probed w : World) (model_ error_ : jsstring) (retryable_ : bool)
  (Hprobe : fst (checkAvailability probe probed)
            = Unavailable model_ error_ retryable_)
  (Hsame : raceWithTimeout (client (calls w)) = Throw (Error error_)) :
  let res := generateStory client genre_ characterDNA w in
  (retryable_ = false ->
   res =
   (Throw (Error (js "Story generation failed after 1 attempts: " ++ error_)),
    {| calls := calls w + 1; delays := delays w |}))
  /\ (retryable_ = true ->
      calls w + 2 <= calls (snd res) <= calls w + 3
      /\ exists later, delays (snd res) = delays w ++ 2000%N :: later)
  /\ (probe (calls probed) = Pending -> retryable_ = true).
Proof.
  cbn zeta.
  assert (Hflag : retryable_ = isRetryableError (Error error_)
                  /\ (probe (calls probed) = Pending -> retryable_ = true)).
  { unfold checkAvailability in Hprobe.
    destruct (probe (calls probed)) as [text|m|];
      cbn [raceProbe fst] in Hprobe; [discriminate| |];
      injection Hprobe as _ <- <-; split; try reflexivity; discriminate. }
  destruct Hflag as [Hflag Htimer].
  split; [|split; [|exact Htimer]].
  - intros ->. unfold generateStory, maxRetries. cbn [attemptLoop].
    rewrite Hsame, <- Hflag. reflexivity.
  - intros ->. unfold generateStory.
    rewrite (attemptLoop_retries client genre_ characterDNA 1 maxRetries 1 w).
    + pose proof (attemptLoop_bounds client genre_ characterDNA
                    (maxRetries - 1) (1 + 1)
                    {| calls := calls w + 1;
                       delays := delays w ++ repeat retryDelay 1 |}
                    eq_refl (le_S 1 1 (le_n 1))) as H.
      cbn zeta in H. destruct H as (_ & Hcalls & Hdelays).
      cbn [calls delays] in Hcalls, Hdelays.
      unfold maxRetries in *. cbn [Nat.sub] in *.
      split; [lia|].
      rewrite Hdelays. cbn [repeat]. rewrite <- app_assoc.
      eexists. reflexivity.
    + unfold maxRetries. lia.
    + unfold maxRetries. lia.
    + intros i Hi. assert (i = 0) as -> by lia. rewrite Nat.add_0_r.
      exists (Error error_). split; [exact Hsame | now symmetry].
Qed.

Lemma availability_flag_is_the_retry_policy_witness :
  fst (checkAvailability overloadedThenRefused freshWorld)
  = Unavailable (js "gemini-2.0-flash") (js "503 Service Unavailable") true
  /\ 2 <= calls (snd (generateStory overloadedThenRefused (js "fantasy") mia
                        freshWorld))
  /\ generateStory badKey (js "fantasy") mia freshWorld =
     (Throw (Error (js "Story generation failed after 1 attempts: invalid api key")),
      {| calls := 1; delays := [] |}).
Proof.
  split; [reflexivity|]. split.
  - apply (availability_flag_is_the_retry_policy overloadedThenRefused
             overloadedThenRefused (js "fantasy") mia freshWorld freshWorld
             (js "gemini-2.0-flash") (js "503 Service Unavailable") true
             eq_refl eq_refl).
    reflexivity.
  - apply (availability_flag_is_the_retry_policy badKey badKey (js "fantasy")
             mia freshWorld freshWorld (js "gemini-2.0-flash")
             (js "invalid api key") false eq_refl eq_refl).
    reflexivity.
Defined.

(** ** The shape of the scenes *)

Lemma parse_cases (storyText : jsstring) (characterDNA : CharacterDNA)
  (st : Story) :
  parseStoryIntoScenes storyText characterDNA = Ok st ->
  (length storyText < 50
   /\ st = createEmergencyFallback characterDNA storyText)
  \/ (50 <= length storyText
      /\ usableSegments storyText <> []
      /\ st =
         {| storyTitle := adventureTitle characterDNA;
            scenes :=
              numberScenes characterDNA 1
                (firstn 4 (usableSegments storyText))
              ++ continuationScenes characterDNA
                   (length (firstn 4 (usableSegments storyText)) + 1);
            totalScenes := 4;
            character := characterDNA;
            emergencyFallback := false;
            fallbackParsed := false |})
  \/ (50 <= length storyText
      /\ usableSegments storyText = []
      /\ st = fallbackParseStory storyText characterDNA).
Proof.
  intros H. destruct (Nat.lt_ge_cases (length storyText) 50) as [Hs|Hl].
  - left. rewrite parseStoryIntoScenes_short in H by exact Hs.
    apply Ok_inj in H. auto.
  - right. destruct (usableSegments storyText) as [|s0 segs] eqn:E.
    + right. rewrite parseStoryIntoScenes_fallback in H by assumption.
      apply Ok_inj in H. auto.
    + left. assert (Hne : usableSegments storyText <> [])
        by (rewrite E; discriminate).
      rewrite parseStoryIntoScenes_primary in H by assumption.
      apply Ok_inj in H. rewrite <- E. auto.
Qed.

Lemma app_nonempty_r {A} (x y : list A) : y <> [] -> x ++ y <> [].
Proof. intros H E. apply app_eq_nil in E as [_ E]. auto. Qed.

Lemma app_nonempty_l {A} (x y : list A) : x <> [] -> x ++ y <> [].
Proof. intros H E. apply app_eq_nil in E as [E _]. auto. Qed.

Lemma orElse_nonempty (a b : jsstring) : b <> [] -> orElse a b <> [].
Proof. intros H. destruct a; [exact H | discriminate]. Qed.

Lemma segmentOf_nonempty (p t c : jsstring) :
  In (t, c) (segmentOf p) -> t <> [] /\ c <> [].
Proof.
  unfold segmentOf, extractScene.
  destruct (length (trim p) =? 0); [intros []|].
  destruct (splitOn_cons LF (trim p)) as [l [ls ->]].
  cbn [index nth_error bind skipn].
  destruct (0 <? length (trim l)) eqn:Ht; [|intros []].
  destruct (0 <? length (trim (join [LF] ls))) eqn:Hc; [|intros []].
  cbn [andb]. intros [[= <- <-]|[]].
  split; now apply length_pos_iff.
Qed.

Lemma numberScenes_filled (characterDNA : CharacterDNA) :
  forall segs k,
    Forall (fun tc => fst tc <> [] /\ snd tc <> []) segs ->
    Forall (filledScene characterDNA) (numberScenes characterDNA k segs).
Proof.
  induction segs as [|[t c] segs IH]; intros k H; cbn [numberScenes];
    constructor; inversion H as [|? ? [Ht Hc] Hrest]; subst.
  - now exists k, t, c.
  - now apply IH.
Qed.

Lemma usableSegments_nonempty (storyText : jsstring) :
  Forall (fun tc => fst tc <> [] /\ snd tc <> []) (usableSegments storyText).
Proof.
  apply Forall_forall. intros [t c] Hin. unfold usableSegments in Hin.
  apply in_flat_map in Hin as [p [_ Hin]].
  now apply segmentOf_nonempty in Hin.
Qed.

Lemma Forall_firstn {A} (P : A -> Prop) (n : nat) (l : list A) :
  Forall P l -> Forall P (firstn n l).
Proof.
  rewrite !Forall_forall. intros H x Hx. apply H.
  rewrite <- (firstn_skipn n l). apply in_or_app. now left.
Qed.

(** The scenes that the line scan has found carry a title and a
    content; the one it is filling carries a title. *)
Lemma scanLine_scanned (characterDNA : CharacterDNA) (st : ScanState)
  (line : jsstring) :
  Forall (fun s => scannedScene characterDNA s /\ content s <> []) (found st)
  /\ (forall s, currentScene st = Some s -> scannedScene characterDNA s) ->
  Forall (fun s => scannedScene characterDNA s /\ content s <> [])
    (found (scanLine characterDNA st line))
  /\ (forall s, currentScene (scanLine characterDNA st line) = Some s ->
                scannedScene characterDNA s).
Proof.
  intros [Hf Hc].
  assert (Hflush :
    Forall (fun s => scannedScene characterDNA s /\ content s <> [])
      (flushScene (found st) (currentScene st))).
  { unfold flushScene. destruct (currentScene st) as [s|]; [|exact Hf].
    destruct (0 <? length (trim (content s))) eqn:E; [|exact Hf].
    apply Forall_app. split; [exact Hf|].
    constructor; [split|constructor].
    - now apply Hc.
    - apply length_pos_iff in E. intros E'. rewrite E' in E. now apply E. }
  unfold scanLine.
  destruct (matches headerRe (trim line) || matches headerRe (trim line)).
  - cbn [found currentScene]. split; [exact Hflush|].
    intros s [= <-]. repeat split.
    apply orElse_nonempty. discriminate.
  - destruct (currentScene st) as [s|] eqn:E.
    + destruct (0 <? length (trim line)).
      * cbn [found currentScene]. split; [exact Hf|].
        intros s' [= <-]. destruct (Hc s eq_refl) as (H1 & H2 & H3).
        repeat split; assumption.
      * split; [exact Hf|]. now rewrite E.
    + split; [exact Hf|]. now rewrite E.
Qed.

Lemma scan_scanned (characterDNA : CharacterDNA) (lines : list jsstring) :
  forall st,
    Forall (fun s => scannedScene characterDNA s /\ content s <> [])
      (found st)
    /\ (forall s, currentScene st = Some s -> scannedScene characterDNA s) ->
    let st' := fold_left (scanLine characterDNA) lines st in
    Forall (fun s => scannedScene characterDNA s /\ content s <> [])
      (flushScene (found st') (currentScene st')).
Proof.
  induction lines as [|line lines IH]; intros st H; cbn [fold_left].
  - cbn zeta. destruct H as [Hf Hc]. unfold flushScene.
    destruct (currentScene st) as [s|]; [|exact Hf].
    destruct (0 <? length (trim (content s))) eqn:E; [|exact Hf].
    apply Forall_app. split; [exact Hf|].
    constructor; [split|constructor].
    + now apply Hc.
    + apply length_pos_iff in E. intros E'. rewrite E' in E. now apply E.
  - apply IH. now apply scanLine_scanned.
Qed.

Lemma refreshScene_scanned (characterDNA : CharacterDNA) (s : Scene) :
  scannedScene characterDNA s ->
  refreshScene characterDNA s
  = parsedScene (number s) (title s) (content s) characterDNA.
Proof.
  intros (Hid & Hname & _). unfold refreshScene, parsedScene.
  now rewrite Hid, Hname.
Qed.

Lemma chunkText_nonempty (g : list jsstring) : chunkText g <> [].
Proof. unfold chunkText. apply app_nonempty_r. discriminate. Qed.

Lemma chunkScenes_filled (characterDNA : CharacterDNA)
  (textChunks : list jsstring) :
  Forall (fun ch => ch <> []) textChunks ->
  Forall (filledScene characterDNA) (chunkScenes characterDNA textChunks).
Proof.
  intros H. unfold chunkScenes. apply Forall_map, Forall_forall.
  intros [i ch] Hin. apply in_combine_r in Hin.
  rewrite Forall_forall in H. cbn [fst snd].
  exists (i + 1), (js "Scene " ++ numToString (i + 1)), ch.
  repeat split; [discriminate | now apply H].
Qed.

(** Every scene of a story of the fallback strategy is a filled
    scene. *)
Lemma fallbackParseStory_filled (storyText : jsstring)
  (characterDNA : CharacterDNA) :
  Forall (filledScene characterDNA)
    (scenes (fallbackParseStory storyText characterDNA)).
Proof.
  unfold fallbackParseStory, slice. cbn [scenes skipn].
  apply Forall_firstn.
  set (lines := filter _ _).
  pose proof (scan_scanned characterDNA lines
                {| found := []; currentScene := None; scanCount := 0 |}) as Hs.
  cbn zeta in Hs.
  specialize (Hs ltac:(split; [constructor | discriminate])).
  destruct (length (flushScene _ _) =? 0).
  - rewrite refreshScene_chunkScenes. apply chunkScenes_filled.
    destruct (splitTextIntoChunks_groups storyText) as (groups & -> & _).
    apply Forall_map, Forall_forall. intros g _. apply chunkText_nonempty.
  - apply Forall_map. eapply Forall_impl; [|exact Hs].
    intros s [Hsc Hc]. rewrite (refreshScene_scanned _ _ Hsc).
    destruct Hsc as (_ & _ & Ht).
    now exists (number s), (title s), (content s).
Qed.

Lemma continuationScenes_padding (characterDNA : CharacterDNA) (k : nat) :
  Forall (fun sc => exists n, sc = paddingScene n characterDNA)
    (continuationScenes characterDNA k).
Proof.
  unfold continuationScenes. apply Forall_map, Forall_forall.
  intros n _. now exists n.
Qed.

(** The scenes of a story: the scene of the emergency story, filled
    scenes, and, in a story of the primary strategy, continuation
    scenes. *)
Lemma story_scene_shapes (storyText : jsstring)
  (characterDNA : CharacterDNA) (st : Story) :
  parseStoryIntoScenes storyText characterDNA = Ok st ->
  (length storyText < 50
   /\ st = createEmergencyFallback characterDNA storyText)
  \/ (50 <= length storyText
      /\ emergencyFallback st = false
      /\ storyTitle st = adventureTitle characterDNA
      /\ character st = characterDNA
      /\ totalScenes st = length (scenes st)
      /\ Forall (fun sc =>
                   filledScene characterDNA sc
                   \/ (fallbackParsed st = false
                       /\ exists n, sc = paddingScene n characterDNA))
           (scenes st)).
Proof.
  intros H. apply parse_cases in H as [[Hs ->]|[(Hl & Hne & ->)|(Hl & E & ->)]].
  - now left.
  - right. cbn [emergencyFallback fallbackParsed storyTitle character
                   totalScenes scenes].
    repeat split; auto.
    + rewrite <- (length_map number), (primary_numbers characterDNA _ Hne).
      reflexivity.
    + apply Forall_app. split.
      * eapply Forall_impl; [intros sc Hsc; left; exact Hsc|].
        apply numberScenes_filled, Forall_firstn, usableSegments_nonempty.
      * eapply Forall_impl;
          [|apply continuationScenes_padding].
        intros sc Hsc. right. now split.
  - right.
    destruct (fallbackParseStory_numbering storyText characterDNA)
      as (_ & _ & _ & Htot).
    repeat split; auto.
    eapply Forall_impl; [|apply fallbackParseStory_filled].
    intros sc Hsc. now left.
Qed.

Lemma oneSceneStory_parsed :
  parseStoryIntoScenes oneSceneText mia = Ok oneSceneStory.
Proof. vm_compute. reflexivity. Qed.

(** X6: in every story that the parser returns, every scene has a
    title and a content that are not empty. *)
Theorem every_scene_has_title_and_content
  (storyText : jsstring) (characterDNA : CharacterDNA) (st : Story)
  (Hst : parseStoryIntoScenes storyText characterDNA = Ok st) :
  Forall (fun sc => title sc <> [] /\ content sc <> []) (scenes st).
Proof.
  apply story_scene_shapes in Hst
    as [[_ ->]|(_ & _ & _ & _ & _ & Hsc)].
  - cbn [createEmergencyFallback scenes]. repeat constructor.
    + discriminate.
    + cbn [content]. apply orElse_nonempty, app_nonempty_r. discriminate.
  - eapply Forall_impl; [|exact Hsc].
    intros sc [(n & t & c & Ht & Hc & ->)|(_ & (n & ->))];
      cbn [title content parsedScene paddingScene].
    + now split.
    + split; [discriminate|].
      unfold continuationContent. apply app_nonempty_r. discriminate.
Qed.

Lemma every_scene_has_title_and_content_witness :
  Forall (fun sc => title sc <> [] /\ content sc <> [])
    (scenes oneSceneStory).
Proof.
  exact (every_scene_has_title_and_content oneSceneText mia oneSceneStory
           oneSceneStory_parsed).
Defined.

(** X7: in every story that the parser returns, a scene has its content
    as description unless it is a continuation scene appended by
    padding, which has no description; so every scene of an emergency
    story or of a story of the fallback strategy has its content as
    description. *)
Theorem description_is_content_unless_padding
  (storyText : jsstring) (characterDNA : CharacterDNA) (st : Story)
  (Hst : parseStoryIntoScenes storyText characterDNA = Ok st) :
  Forall (fun sc =>
            description sc = Some (content sc)
            \/ (description sc = None
                /\ sc = paddingScene (number sc) characterDNA))
    (scenes st)
  /\ (emergencyFallback st = true \/ fallbackParsed st = true ->
      Forall (fun sc => description sc = Some (content sc)) (scenes st)).
Proof.
  apply story_scene_shapes in Hst
    as [[_ ->]|(_ & He & _ & _ & _ & Hsc)].
  - cbn [createEmergencyFallback scenes]. split.
    + repeat constructor.
    + intros _. repeat constructor.
  - split.
    + eapply Forall_impl; [|exact Hsc].
      intros sc [(n & t & c & _ & _ & ->)|(_ & (n & ->))].
      * now left.
      * right. now split.
    + intros [Hf|Hf]; [congruence|].
      eapply Forall_impl; [|exact Hsc].
      intros sc [(n & t & c & _ & _ & ->)|(Hp & _)]; [reflexivity|].
      congruence.
Qed.

Lemma description_is_content_unless_padding_witness :
  Forall (fun sc =>
            description sc = Some (content sc)
            \/ (description sc = None /\ sc = paddingScene (number sc) mia))
    (scenes oneSceneStory).
Proof.
  exact (proj1 (description_is_content_unless_padding oneSceneText mia
                  oneSceneStory oneSceneStory_parsed)).
Defined.

Lemma scenes_carry_name (storyText : jsstring)
  (characterDNA : CharacterDNA) (st : Story) :
  parseStoryIntoScenes storyText characterDNA = Ok st ->
  Forall (fun sc => characterName sc = name characterDNA) (scenes st).
Proof.
  intros Hst. apply story_scene_shapes in Hst
    as [[_ ->]|(_ & _ & _ & _ & _ & Hsc)].
  - repeat constructor.
  - eapply Forall_impl; [|exact Hsc].
    now intros sc [(n & t & c & _ & _ & ->)|(_ & (n & ->))].
Qed.

(** X8: every story that the parser returns carries the character it
    was given and the title made of the character's name;
    [totalScenes] is the number of its scenes; it is never tagged both
    as emergency and as fallback; every scene carries the name of the
    character, and, except in an emergency story, its storyboard prompt
    is the one made from its own title and content. *)
Theorem story_envelope_and_prompts
  (storyText : jsstring) (characterDNA : CharacterDNA) (st : Story)
  (Hst : parseStoryIntoScenes storyText characterDNA = Ok st) :
  storyTitle st = name characterDNA ++ js "'s Adventure"
  /\ character st = characterDNA
  /\ totalScenes st = length (scenes st)
  /\ (emergencyFallback st = true -> fallbackParsed st = false)
  /\ Forall (fun sc => characterName sc = name characterDNA) (scenes st)
  /\ (emergencyFallback st = false ->
      Forall (fun sc =>
                storyboardPrompt sc =
                generateStoryboardPrompt (title sc) (content sc) characterDNA)
        (scenes st)).
Proof.
  pose proof (scenes_carry_name storyText characterDNA st Hst) as Hname.
  apply story_scene_shapes in Hst
    as [[_ ->]|(_ & He & Ht & Hc & Htot & Hsc)].
  - cbn. repeat split; try discriminate. repeat constructor.
  - repeat split; auto.
    + congruence.
    + intros _. eapply Forall_impl; [|exact Hsc].
      now intros sc [(n & t & c & _ & _ & ->)|(_ & (n & ->))].
Qed.

Lemma story_envelope_and_prompts_witness :
  totalScenes oneSceneStory = length (scenes oneSceneStory)
  /\ Forall (fun sc => characterName sc = js "Mia") (scenes oneSceneStory).
Proof.
  destruct (story_envelope_and_prompts oneSceneText mia oneSceneStory
              oneSceneStory_parsed) as (_ & _ & Ht & _ & Hn & _).
  split; [exact Ht | exact Hn].
Defined.

(** ** Storyboard requests *)

Lemma occursIn_join (sep l : jsstring) (ls : list jsstring) :
  In l ls -> occursIn l (join sep ls).
Proof.
  induction ls as [|x ls IH]; intros Hin; [destruct Hin|].
  destruct ls as [|y ls].
  - destruct Hin as [->|[]]. cbn [join]. exists [], [].
    now rewrite app_nil_r.
  - change (join sep (x :: y :: ls)) with (x ++ sep ++ join sep (y :: ls)).
    destruct Hin as [->|Hin].
    + now exists [], (sep ++ join sep (y :: ls)).
    + destruct (IH Hin) as [a [b E]]. exists (x ++ sep ++ a), b.
      rewrite E, <- !app_assoc. reflexivity.
Qed.

(** X9: a storyboard request for a scene of a story that the parser
    returned names the scene by [scene_<number>], has no image yet, and
    its prompt holds the title of the scene, the name of the character
    of the story, the first 300 units of the content and the style
    (['cartoon'] when none is given). *)
Theorem storyboard_request_of_parsed_scene
  (storyText : jsstring) (characterDNA : CharacterDNA) (st : Story)
  (sc : Scene) (style : option jsstring)
  (Hst : parseStoryIntoScenes storyText characterDNA = Ok st)
  (Hin : In sc (scenes st)) :
  let request := generateStoryboard sc style in
  requestSceneId request = js "scene_" ++ numToString (number sc)
  /\ imageUrl request = None
  /\ occursIn (js "Title: " ++ title sc) (prompt request)
  /\ occursIn (js "Character: " ++ name characterDNA) (prompt request)
  /\ occursIn (js "Description: " ++ firstn 300 (content sc))
       (prompt request)
  /\ occursIn
       (js "- " ++ match style with Some s => s | None => js "cartoon" end
        ++ js " art style")
       (prompt request).
Proof.
  cbn zeta.
  destruct (parseStoryIntoScenes_numbering storyText characterDNA st Hst)
    as (Hids & _).
  pose proof (scenes_carry_name storyText characterDNA st Hst) as Hname.
  unfold idsFollowNumbers in Hids. rewrite Forall_forall in Hids, Hname.
  specialize (Hids sc Hin). specialize (Hname sc Hin). cbn beta in Hids.
  unfold generateStoryboard.
  cbn [requestSceneId imageUrl prompt]. rewrite <- Hname.
  split; [exact Hids|]. split; [reflexivity|].
  unfold storyboardLines, substring0.
  repeat split; apply occursIn_join; cbn [In]; tauto.
Qed.

Lemma storyboard_request_of_parsed_scene_witness :
  requestSceneId (generateStoryboard (paddingScene 2 mia) None)
  = js "scene_2"
  /\ occursIn (js "- cartoon art style")
       (prompt (generateStoryboard (paddingScene 2 mia) None)).
Proof.
  destruct (storyboard_request_of_parsed_scene oneSceneText mia
              oneSceneStory (paddingScene 2 mia) None oneSceneStory_parsed)
    as (Hid & _ & _ & _ & _ & Hstyle).
  - cbn. tauto.
  - split; [exact Hid | exact Hstyle].
Defined.

(** ** Stories without scenes *)

Lemma firstn_nonempty {A} (n : nat) (l : list A) :
  l <> [] -> firstn (S n) l <> [].
Proof. destruct l; [congruence | discriminate]. Qed.

Lemma fallbackParseStory_some_scene (storyText : jsstring)
  (characterDNA : CharacterDNA) :
  sentencesOf storyText <> [] ->
  scenes (fallbackParseStory storyText characterDNA) <> [].
Proof.
  intros Hs. unfold fallbackParseStory, slice. cbn [scenes skipn Nat.sub].
  apply firstn_nonempty.
  destruct (flushScene _ _) as [|s scanned] eqn:E; cbn [length Nat.eqb].
  - rewrite refreshScene_chunkScenes.
    destruct (splitTextIntoChunks_groups storyText)
      as (groups & Hch & Hcat & _).
    intros Hnil. apply (f_equal (@length Scene)) in Hnil.
    rewrite chunkScenes_length, Hch, length_map in Hnil.
    destruct groups; [|discriminate]. cbn in Hcat. congruence.
  - discriminate.
Qed.

(** X10: the parser returns a story with at least one scene whenever
    the text holds a sentence (a piece between runs of full stops,
    exclamation and question marks that is not blank), and also
    whenever the text is shorter than 50 units.  A story without any
    scene is a story of the fallback strategy, with [totalScenes = 0],
    on a text of 50 units or more without any sentence. *)
Theorem story_has_scene_when_text_has_sentence
  (storyText : jsstring) (characterDNA : CharacterDNA) (st : Story)
  (Hst : parseStoryIntoScenes storyText characterDNA = Ok st) :
  (sentencesOf storyText <> [] \/ length storyText < 50 -> scenes st <> [])
  /\ (scenes st = [] ->
      50 <= length storyText
      /\ fallbackParsed st = true
      /\ totalScenes st = 0
      /\ sentencesOf storyText = []).
Proof.
  apply parse_cases in Hst
    as [[Hs ->]|[(Hl & Hne & ->)|(Hl & E & ->)]].
  - split; [discriminate|]. discriminate.
  - cbn [scenes].
    assert (Hlen : length
                     (numberScenes characterDNA 1
                        (firstn 4 (usableSegments storyText))
                      ++ continuationScenes characterDNA
                           (length (firstn 4 (usableSegments storyText)) + 1))
                   = 4).
    { rewrite <- (length_map number), (primary_numbers characterDNA _ Hne).
      reflexivity. }
    split; intros H.
    + intros Hnil. rewrite Hnil in Hlen. discriminate.
    + rewrite H in Hlen. discriminate.
  - split.
    + intros [Hs|Hs]; [|lia]. now apply fallbackParseStory_some_scene.
    + intros Hnil.
      destruct (fallbackParseStory_numbering storyText characterDNA)
        as (_ & _ & _ & Htot).
      repeat split; auto.
      * now rewrite Htot, Hnil.
      * destruct (sentencesOf storyText) as [|s ss] eqn:Es; [reflexivity|].
        exfalso.
        apply (fallbackParseStory_some_scene storyText characterDNA);
          [rewrite Es; discriminate | exact Hnil].
Qed.

Lemma story_has_scene_when_text_has_sentence_witness :
  scenes oneSceneStory <> [].
Proof.
  apply (proj1 (story_has_scene_when_text_has_sentence oneSceneText mia
                  oneSceneStory oneSceneStory_parsed)).
  left. vm_compute. discriminate.
Defined.

(** ** A preamble of several lines *)

(** X11: when the text before the first marker has a first line and
    more text after it, the primary strategy takes it as the first
    scene: of four well-marked scenes that follow, the first three
    become the scenes 2 to 4 and the fourth is left out. *)
Theorem preamble_of_two_lines_becomes_first_scene
  (t0 b0 : jsstring) (s1 s2 s3 s4 : MarkedScene)
  (characterDNA : CharacterDNA)
  (Hlen : 50 <= length (fourSceneText (t0 ++ [LF] ++ b0) s1 s2 s3 s4))
  (Hpre : markerFree (t0 ++ [LF] ++ b0))
  (Hline : ~ In LF t0) (Ht0 : trim t0 <> []) (Hb0 : trim b0 <> [])
  (H1 : wellMarked s1) (H2 : wellMarked s2)
  (H3 : wellMarked s3) (H4 : wellMarked s4) :
  exists st,
    parseStoryIntoScenes (fourSceneText (t0 ++ [LF] ++ b0) s1 s2 s3 s4)
      characterDNA = Ok st
    /\ scenes st =
       [ parsedScene 1 (trim t0) (trim b0) characterDNA;
         sceneOf 2 s1 characterDNA; sceneOf 3 s2 characterDNA;
         sceneOf 4 s3 characterDNA ]
    /\ totalScenes st = 4
    /\ fallbackParsed st = false.
Proof.
  assert (F : forall ms, wellMarked ms ->
                markerFree (titleLine ms ++ [LF] ++ body ms))
    by (intros ms H; apply H).
  assert (E : usableSegments (fourSceneText (t0 ++ [LF] ++ b0) s1 s2 s3 s4)
              = [ (trim t0, trim b0);
                  (trim (titleLine s1), trim (body s1));
                  (trim (titleLine s2), trim (body s2));
                  (trim (titleLine s3), trim (body s3));
                  (trim (titleLine s4), trim (body s4)) ]).
  { unfold usableSegments, fourSceneText.
    rewrite split_sceneText by auto.
    rewrite split_sceneText by auto.
    rewrite split_sceneText by auto.
    rewrite <- (app_nil_r (sceneText s4)).
    rewrite split_sceneText by auto.
    rewrite app_nil_r, split_markerFree by auto.
    cbn [flat_map]. rewrite !segmentOf_marked by assumption.
    unfold segmentOf at 1. rewrite extractScene_marked by assumption.
    reflexivity. }
  eexists. split.
  { apply parseStoryIntoScenes_primary; [exact Hlen|].
    rewrite E. discriminate. }
  rewrite E. cbn [scenes totalScenes fallbackParsed firstn numberScenes
                  length].
  repeat split.
Qed.

Lemma preamble_of_two_lines_becomes_first_scene_witness :
  exists st,
    parseStoryIntoScenes
      (fourSceneText chattyPreamble (storyScene 1) (storyScene 2)
         (storyScene 3) (storyScene 4)) mia = Ok st
    /\ map title (scenes st)
       = [ js "Sure, happy to help!"; js "The Part"; js "The Part";
           js "The Part" ]
    /\ map content (firstn 1 (scenes st)) = [js "Here is your story."].
Proof.
  destruct storyScene_wellMarked as (W1 & W2 & W3 & W4).
  destruct (preamble_of_two_lines_becomes_first_scene
              (js "Sure, happy to help!")
              (js "Here is your story." ++ [LF; LF])
              (storyScene 1) (storyScene 2) (storyScene 3) (storyScene 4)
              mia)
    as (st & Hst & Hsc & _); try assumption.
  - vm_compute. lia.
  - apply markerFreeb_sound. reflexivity.
  - apply not_in_LF. reflexivity.
  - discriminate.
  - discriminate.
  - exists st. split; [exact Hst|]. rewrite Hsc. split; reflexivity.
Defined.

(** ** The chunks of splitTextIntoChunks *)

Lemma ceilDiv_covers (n k : nat) : 1 <= k -> n <= k * ceilDiv n k.
Proof.
  intros Hk. unfold ceilDiv.
  pose proof (Nat.div_mod_eq (n + (k - 1)) k) as E.
  pose proof (Nat.mod_upper_bound (n + (k - 1)) k ltac:(lia)). lia.
Qed.

Lemma concat_nil_nonempty {A} (ls : list (list A)) :
  Forall (fun l => l <> []) ls -> concat ls = [] -> ls = [].
Proof.
  intros H E. destruct ls as [|l ls]; [reflexivity|].
  inversion H as [|? ? Hl _]; subst. cbn [concat] in E.
  apply app_eq_nil in E as [E _]. congruence.
Qed.

(** X12: for every number of chunks [k >= 1], [splitTextIntoChunks]
    cuts the sentences of the text, in order and without loss or
    repetition, into at most [k] groups of at least one and at most
    [ceil(n / k)] sentences, and gives for each group its sentences
    joined by a full stop and a space, trimmed and ended by a full
    stop.  It gives no chunk exactly when the text holds no
    sentence. *)
Theorem splitTextIntoChunks_partition
  (text : jsstring) (numChunks : nat) (Hk : 1 <= numChunks) :
  exists groups,
    splitTextIntoChunks text numChunks = map chunkText groups
    /\ concat groups = sentencesOf text
    /\ length groups <= numChunks
    /\ Forall (fun g =>
                 1 <= length g
                 <= ceilDiv (length (sentencesOf text)) numChunks)
         groups
    /\ (splitTextIntoChunks text numChunks = [] <-> sentencesOf text = []).
Proof.
  set (sentences := sentencesOf text).
  set (chunkSize := ceilDiv (length sentences) numChunks).
  assert (Hs : Forall (fun s => (0 <? length (trim s)) = true) sentences).
  { apply Forall_forall. intros s Hin. unfold sentences, sentencesOf in Hin.
    now apply filter_In in Hin. }
  set (groups :=
         filter nonEmpty
           (map (chunkGroup sentences chunkSize) (seq 0 numChunks))).
  assert (Hch : splitTextIntoChunks text numChunks = map chunkText groups).
  { unfold splitTextIntoChunks. cbn zeta. now apply chunks_of_groups. }
  assert (Hcat : concat groups = sentences).
  { unfold groups. rewrite concat_filter_nonEmpty.
    rewrite (map_ext _ _ (fun i => chunkGroup_firstn sentences chunkSize i)).
    apply concat_chunks. unfold chunkSize.
    pose proof (ceilDiv_covers (length sentences) numChunks Hk). lia. }
  assert (Hsize : Forall (fun g => 1 <= length g <= chunkSize) groups).
  { apply Forall_forall. intros g Hg. unfold groups in Hg.
    apply filter_In in Hg as [Hg Hne]. apply in_map_iff in Hg as [i [<- _]].
    split.
    - destruct (chunkGroup sentences chunkSize i); [discriminate|].
      simpl. lia.
    - rewrite chunkGroup_firstn. apply firstn_le_length. }
  exists groups. repeat split; try assumption.
  - unfold groups. eapply Nat.le_trans; [apply filter_length_le|].
    now rewrite length_map, length_seq.
  - rewrite Hch. intros E. apply map_eq_nil in E.
    now rewrite <- Hcat, E.
  - intros E. rewrite Hch. fold sentences in E. rewrite E in Hcat.
    apply concat_nil_nonempty in Hcat; [now rewrite Hcat|].
    eapply Forall_impl; [|exact Hsize].
    intros g [Hg _] ->. simpl in Hg. lia.
Qed.

Lemma splitTextIntoChunks_partition_witness :
  exists groups,
    splitTextIntoChunks plainParagraph 2 = map chunkText groups
    /\ concat groups = sentencesOf plainParagraph
    /\ length groups <= 2.
Proof.
  destruct (splitTextIntoChunks_partition plainParagraph 2 ltac:(lia))
    as (groups & Hch & Hcat & Hlen & _).
  exists groups. repeat split; assumption.
Defined.

(** ** The labels of a storyboard prompt *)

Lemma generateStoryboardPrompt_labels (sceneTitle sceneContent : jsstring)
  (characterDNA : CharacterDNA) :
  occursIn (js "Setting: " ++ sceneSetting sceneContent)
    (generateStoryboardPrompt sceneTitle sceneContent characterDNA)
  /\ occursIn (js "Mood/Expression: " ++ sceneMood sceneContent)
       (generateStoryboardPrompt sceneTitle sceneContent characterDNA).
Proof.
  unfold generateStoryboardPrompt, templateLines, sceneSetting, sceneMood.
  split; apply occursIn_join; cbn [In]; tauto.
Qed.

Lemma includes_within (w k1 k2 : jsstring) :
  occursIn k1 k2 -> includes w k2 = true -> includes w k1 = true.
Proof.
  intros [a [b ->]] H. apply includes_spec in H as [x [y ->]].
  apply includes_spec. exists (x ++ a), (b ++ y).
  now rewrite <- !app_assoc.
Qed.

Lemma street_holds_tree : occursIn (js "tree") (js "street").
Proof. now exists (js "s"), (js "t"). Qed.

(** X13: the keywords are looked for as parts of words and in the order
    of the rules, and [tree] is a part of [street]: a content that
    holds [street] and neither [library] nor [book] gets the setting
    [mystical forest], and the setting [bustling city street] is only
    ever given to a content that holds [city].  The setting found is
    the one written on the [Setting:] line of the storyboard prompt. *)
Theorem street_is_read_as_forest (sceneContent : jsstring) :
  (sceneSetting sceneContent = js "bustling city street" ->
   occursIn (js "city") (toLowerCase sceneContent))
  /\ (occursIn (js "street") (toLowerCase sceneContent) ->
      ~ occursIn (js "library") (toLowerCase sceneContent) ->
      ~ occursIn (js "book") (toLowerCase sceneContent) ->
      sceneSetting sceneContent = js "mystical forest")
  /\ (forall sceneTitle characterDNA,
         occursIn (js "Setting: " ++ sceneSetting sceneContent)
           (generateStoryboardPrompt sceneTitle sceneContent characterDNA)).
Proof.
  unfold sceneSetting, settingRules. set (w := toLowerCase sceneContent).
  cbn [classify existsb]. split; [|split].
  - destruct (includes w (js "library")); [intros H; discriminate H|].
    destruct (includes w (js "book")); [intros H; discriminate H|].
    destruct (includes w (js "forest")); [intros H; discriminate H|].
    destruct (includes w (js "tree")) eqn:Etree; [intros H; discriminate H|].
    destruct (includes w (js "cave")); [intros H; discriminate H|].
    destruct (includes w (js "underground")); [intros H; discriminate H|].
    destruct (includes w (js "castle")); [intros H; discriminate H|].
    destruct (includes w (js "tower")); [intros H; discriminate H|].
    destruct (includes w (js "city")) eqn:Ecity.
    { intros _. now apply includes_spec. }
    destruct (includes w (js "street")) eqn:Estreet.
    { apply (includes_within w _ _ street_holds_tree) in Estreet.
      congruence. }
    cbn [orb].
    destruct (includes w (js "mountain")); [intros H; discriminate H|].
    destruct (includes w (js "peak")); [intros H; discriminate H|].
    destruct (includes w (js "ocean")); [intros H; discriminate H|].
    destruct (includes w (js "sea")); intros H; discriminate H.
  - intros Hstreet Hlib Hbook.
    apply includes_spec in Hstreet.
    apply (includes_within w _ _ street_holds_tree) in Hstreet.
    destruct (includes w (js "library")) eqn:E1.
    { apply includes_spec in E1. contradiction. }
    destruct (includes w (js "book")) eqn:E2.
    { apply includes_spec in E2. contradiction. }
    rewrite Hstreet. cbn [orb]. now rewrite orb_true_r.
  - intros sceneTitle characterDNA.
    apply (generateStoryboardPrompt_labels sceneTitle sceneContent
             characterDNA).
Qed.

Lemma street_is_read_as_forest_witness :
  sceneSetting (js "They walked down the quiet Street at night.")
  = js "mystical forest".
Proof.
  apply (proj1 (proj2 (street_is_read_as_forest
                         (js "They walked down the quiet Street at night.")))).
  - exists (js "they walked down the quiet "), (js " at night.").
    reflexivity.
  - intros H. apply includes_spec in H. vm_compute in H. discriminate H.
  - intros H. apply includes_spec in H. vm_compute in H. discriminate H.
Defined.

(** ** Case of the keywords *)

(** X14: the keywords are matched whatever their case: a message that
    holds a text whose lower-case form is one of the retryable keywords
    is retryable. *)
Theorem retryable_whatever_the_case (m v kw : jsstring)
  (Hkw : In kw retryableMessages)
  (Hcase : toLowerCase v = kw)
  (Hocc : occursIn v m) :
  isRetryableError (Error m) = true.
Proof.
  apply isRetryableError_spec. exists kw. split; [exact Hkw|].
  destruct Hocc as [a [b ->]]. cbn [message].
  rewrite !toLowerCase_app, Hcase.
  now exists (toLowerCase a), (toLowerCase b).
Qed.

Lemma retryable_whatever_the_case_witness :
  isRetryableError (Error rateLimitNotice) = true.
Proof.
  apply (retryable_whatever_the_case rateLimitNotice (js "Rate Limit")
           (js "rate limit")).
  - cbn. tauto.
  - reflexivity.
  - exists (js "HTTP 429: "), (js " Exceeded"). reflexivity.
Defined.

(** ** The example story of the prompt *)

Lemma exampleStory_marked (tone : Tone) (nm : jsstring) :
  exampleStory tone nm =
  fourSceneText [] (exampleScene tone nm 0) (exampleScene tone nm 1)
    (exampleScene tone nm 2) (exampleScene tone nm 3).
Proof.
  unfold exampleStory, fourSceneText, sceneText, exampleScene, exampleStoryLines.
  cbn [nth Nat.mul Nat.add marker titleLine body Nat.ltb Nat.leb join].
  destruct tone; cbn [byTone whenHumorous]; rewrite <- ?app_assoc; reflexivity.
Qed.

Lemma marker_holds_colon (m : jsstring) : isMarker m -> In 58%N m.
Proof.
  intros (c1 & c2 & c3 & c4 & c5 & ws & ds & -> & _).
  apply in_or_app. right. apply in_or_app. right. apply in_or_app. right.
  now left.
Qed.

Lemma no_colon_markerFree (s : jsstring) : ~ In 58%N s -> markerFree s.
Proof.
  intros H a m b -> Hm. apply H.
  apply in_or_app. right. apply in_or_app. left.
  now apply marker_holds_colon.
Qed.

Lemma trim_nonempty_of_solid (c : N) (s : jsstring) :
  In c s -> isWhiteSpace c = false -> trim s <> [].
Proof.
  intros Hin Hc. induction s as [|c0 s IH]; [destruct Hin|].
  destruct (isWhiteSpace c0) eqn:E0.
  - rewrite trim_cons_space by exact E0. apply IH.
    destruct Hin as [->|Hin]; [congruence | exact Hin].
  - rewrite trim_cons_solid by exact E0. rewrite trimEnd_cons.
    destruct (trimEnd s); [rewrite E0|]; discriminate.
Qed.

Lemma existsb_In (x : N) (s : jsstring) :
  existsb (N.eqb x) s = true -> In x s.
Proof.
  intros H. apply existsb_exists in H as [y [Hy E]].
  apply N.eqb_eq in E. now subst y.
Qed.

Lemma not_in_unit (x : N) (s : jsstring) :
  existsb (N.eqb x) s = false -> ~ In x s.
Proof.
  intros H Hin. assert (E : existsb (N.eqb x) s = true).
  { apply existsb_exists. exists x. split; [exact Hin | apply N.eqb_refl]. }
  congruence.
Qed.

Ltac find_in :=
  first [ solve [apply existsb_In; reflexivity]
        | solve [apply in_or_app; right; find_in]
        | solve [apply in_or_app; left; find_in] ].

Ltac not_in_chain Hin Hnm :=
  repeat (apply in_app_or in Hin; destruct Hin as [Hin|Hin]);
  first [ exact (Hnm Hin) | revert Hin; apply not_in_unit; reflexivity ].

Lemma exampleScene_wellMarked (tone : Tone) (nm : jsstring) (n : nat) :
  ~ In 58%N nm -> n < 4 -> wellMarked (exampleScene tone nm n).
Proof.
  intros Hnm Hn.
  assert (Hcases : n = 0 \/ n = 1 \/ n = 2 \/ n = 3) by lia.
  unfold wellMarked, exampleScene, exampleStoryLines.
  destruct Hcases as [-> | [-> | [-> | -> ]]];
    cbn [nth Nat.mul Nat.add marker titleLine body Nat.ltb Nat.leb];
    (split; [|split; [|split; [|split]]]).
  all: try (apply not_in_LF; reflexivity).
  all: try (match goal with |- isMarker _ => idtac end;
            first [ exact (plain_marker 49 eq_refl)
                  | exact (plain_marker 50 eq_refl)
                  | exact (plain_marker 51 eq_refl)
                  | exact (plain_marker 52 eq_refl) ]).
  all: try (match goal with |- trim (skipn _ _) <> [] => discriminate end).
  all: try (match goal with
            | |- trim _ <> [] =>
                apply (trim_nonempty_of_solid 46); [|reflexivity];
                destruct tone; cbn [byTone whenHumorous]; find_in
            end).
  all: apply no_colon_markerFree; intros Hin;
    destruct tone; cbn [byTone whenHumorous] in Hin;
    not_in_chain Hin Hnm.
Qed.

Lemma trim_app_space_l (ws y : jsstring) :
  forallb isWhiteSpace ws = true -> trim (ws ++ y) = trim y.
Proof.
  induction ws as [|c ws IH]; [reflexivity|].
  cbn [forallb app]. intros H. apply andb_true_iff in H as [Hc Hws].
  rewrite trim_cons_space by exact Hc. now apply IH.
Qed.

Lemma trim_app_space_r (x ws : jsstring) :
  forallb isWhiteSpace ws = true -> trim (x ++ ws) = trim x.
Proof.
  intros H. rewrite <- (rev_involutive (x ++ ws)), trim_rev, rev_app_distr.
  rewrite trim_app_space_l
    by (apply forallb_forall; intros c Hc;
        apply (proj1 (forallb_forall _ _) H);
        exact (proj2 (in_rev ws c) Hc)).
  now rewrite trim_rev, rev_involutive.
Qed.

Lemma join_app (sep : jsstring) (A B : list jsstring) :
  A <> [] -> B <> [] ->
  join sep (A ++ B) = join sep A ++ sep ++ join sep B.
Proof.
  intros HA HB. induction A as [|x A IH]; [congruence|].
  destruct A as [|x' A].
  - destruct B as [|y B]; [congruence|]. reflexivity.
  - change (join sep ((x :: x' :: A) ++ B))
      with (x ++ sep ++ join sep ((x' :: A) ++ B)).
    rewrite IH by discriminate.
    change (join sep (x :: x' :: A)) with (x ++ sep ++ join sep (x' :: A)).
    now rewrite <- !app_assoc.
Qed.

Lemma occursIn_join_part (sep : jsstring) (A E C : list jsstring) :
  E <> [] -> occursIn (join sep E) (join sep (A ++ E ++ C)).
Proof.
  intros HE.
  assert (H1 : occursIn (join sep E) (join sep (E ++ C))).
  { destruct C as [|c C].
    - rewrite app_nil_r. exists [], []. now rewrite app_nil_r.
    - rewrite join_app by (auto; discriminate).
      now exists [], (sep ++ join sep (c :: C)). }
  destruct A as [|a A]; [exact H1|].
  rewrite join_app; [|discriminate|].
  - destruct H1 as [x [y ->]].
    exists (join sep (a :: A) ++ sep ++ x), y.
    now rewrite <- !app_assoc.
  - intros E0. apply app_eq_nil in E0 as [E0 _]. auto.
Qed.

Lemma exampleStory_length (tone : Tone) (nm : jsstring) :
  50 <= length (exampleStory tone nm).
Proof.
  unfold exampleStory, exampleStoryLines. cbn [join].
  rewrite !length_app. simpl. lia.
Qed.

(** X15: the example story that [buildStoryPrompt] writes into the
    prompt is in the format that the parser reads: for every tone and
    every character whose name holds no colon, the prompt holds the
    example, and the parser turns the example into exactly four scenes,
    numbered 1 to 4, with the four titles of the example and its four
    paragraphs, trimmed, as contents, without any padding and without
    the fallback strategy. *)
Theorem example_story_is_parsed_as_four_scenes
  (prompt genre_ : jsstring) (characterDNA : CharacterDNA)
  (options : GenerationOptions)
  (Hcolon : ~ In 58%N (name characterDNA)) :
  let tone_ := match tone options with Some t => t | None => lighthearted end in
  let nm := orElse (name characterDNA) (js "the protagonist") in
  occursIn (exampleStory tone_ nm)
    (buildStoryPrompt prompt genre_ characterDNA options)
  /\ exists st,
      parseStoryIntoScenes (exampleStory tone_ nm) characterDNA = Ok st
      /\ map number (scenes st) = [1; 2; 3; 4]
      /\ map title (scenes st) =
         [ js "The Mysterious Discovery"; js "The Secret Revealed";
           js "The Challenge Emerges"; js "The Resolution" ]
      /\ map content (scenes st) =
         map (fun i => trim (nth i (exampleStoryLines tone_ nm) []))
           [1; 4; 7; 10]
      /\ totalScenes st = 4
      /\ fallbackParsed st = false.
Proof.
  cbn zeta.
  set (tone_ := match tone options with Some t => t | None => lighthearted end).
  set (nm := orElse (name characterDNA) (js "the protagonist")).
  assert (Hnm : ~ In 58%N nm).
  { unfold nm. destruct (name characterDNA) eqn:E; [|exact Hcolon].
    apply not_in_unit. reflexivity. }
  split.
  - unfold buildStoryPrompt, exampleStory. cbn zeta. fold tone_ nm.
    apply occursIn_join_part. discriminate.
  - pose proof (exampleScene_wellMarked tone_ nm 0 Hnm ltac:(lia)) as W0.
    pose proof (exampleScene_wellMarked tone_ nm 1 Hnm ltac:(lia)) as W1.
    pose proof (exampleScene_wellMarked tone_ nm 2 Hnm ltac:(lia)) as W2.
    pose proof (exampleScene_wellMarked tone_ nm 3 Hnm ltac:(lia)) as W3.
    assert (Hfree : markerFree []).
    { apply markerFreeb_sound. reflexivity. }
    assert (Hline : ~ In LF (trim [])) by (intros []).
    pose proof (usableSegments_four [] _ _ _ _ Hfree Hline W0 W1 W2 W3) as E.
    rewrite <- exampleStory_marked in E.
    eexists. split.
    { apply parseStoryIntoScenes_primary; [apply exampleStory_length|].
      rewrite E. discriminate. }
    rewrite E.
    cbn [scenes totalScenes fallbackParsed firstn numberScenes length map
         number title content parsedScene app continuationScenes Nat.add
         Nat.sub seq].
    unfold exampleScene.
    cbn [titleLine body Nat.mul Nat.add Nat.ltb Nat.leb].
    rewrite !trim_app_space_r by reflexivity. rewrite ?app_nil_r.
    repeat split.
Qed.

Lemma example_story_is_parsed_as_four_scenes_witness :
  occursIn (exampleStory humorous (js "Mia"))
    (buildStoryPrompt (js "a lost map") (js "fantasy") mia funnyOptions)
  /\ exists st,
      parseStoryIntoScenes (exampleStory humorous (js "Mia")) mia = Ok st
      /\ map title (scenes st) =
         [ js "The Mysterious Discovery"; js "The Secret Revealed";
           js "The Challenge Emerges"; js "The Resolution" ].
Proof.
  destruct (example_story_is_parsed_as_four_scenes (js "a lost map")
              (js "fantasy") mia funnyOptions)
    as (Hocc & st & Hst & _ & Ht & _).
  - apply not_in_unit. reflexivity.
  - split; [exact Hocc|]. exists st. split; [exact Hst | exact Ht].
Defined.

(** ** Texts without marker *)

Lemma first_occurrence (d : N) (s : jsstring) :
  In d s -> exists a b, s = a ++ d :: b /\ ~ In d a.
Proof.
  induction s as [|c s IH]; intros Hin; [destruct Hin|].
  destruct (N.eq_dec c d) as [->|Hne].
  - exists [], s. split; [reflexivity | intros []].
  - destruct Hin as [E|Hin]; [congruence|].
    destruct (IH Hin) as (a & b & -> & Ha).
    exists (c :: a), b. split; [reflexivity|].
    intros [E|H]; [congruence | auto].
Qed.

Lemma trim_head_solid (s r : jsstring) (c : N) :
  trim s = c :: r -> isWhiteSpace c = false.
Proof.
  unfold trim. rewrite <- trimStart_trimEnd. apply dropWhile_head.
Qed.

Lemma trim_idem (s : jsstring) : trim (trim s) = trim s.
Proof.
  unfold trim at 2. now rewrite trim_trimEnd, trim_trimStart.
Qed.

Lemma trim_nil_space (s : jsstring) :
  trim s = [] -> forallb isWhiteSpace s = true.
Proof.
  induction s as [|c s IH]; [reflexivity|].
  destruct (isWhiteSpace c) eqn:Hc.
  - rewrite trim_cons_space by exact Hc. intros H.
    cbn [forallb]. now rewrite Hc, IH.
  - rewrite trim_cons_solid, trimEnd_cons by exact Hc.
    destruct (trimEnd s); [rewrite Hc|]; discriminate.
Qed.

Lemma trim_within (s : jsstring) : incl (trim s) s.
Proof.
  eapply incl_tran; [apply trim_in_trimEnd|].
  unfold trimEnd. intros x Hx.
  apply (proj2 (in_rev _ x)) in Hx. apply dropWhile_incl in Hx.
  exact (proj2 (in_rev s x) Hx).
Qed.

(** A trimmed text of several lines gives the primary loop a title,
    its first line, and a content, the rest. *)
Lemma extractScene_lines (p : jsstring) :
  In LF (trim p) ->
  exists t0 rest,
    trim p = t0 ++ [LF] ++ rest
    /\ ~ In LF t0
    /\ extractScene p = Ok (Some (trim t0, trim rest)).
Proof.
  intros Hin. destruct (first_occurrence LF (trim p) Hin)
    as (t0 & rest & E & Hfirst).
  exists t0, rest. split; [exact E|]. split; [exact Hfirst|].
  assert (Ht0 : trim t0 <> []).
  { destruct t0 as [|c t0].
    - cbn [app] in E. apply trim_head_solid in E. discriminate E.
    - cbn [app] in E. apply trim_head_solid in E.
      apply (trim_nonempty_of_solid c); [now left | exact E]. }
  assert (Hrest : trim rest <> []).
  { intros Hnil. apply trim_nil_space in Hnil.
    assert (Hws : forallb isWhiteSpace (LF :: rest) = true)
      by (cbn [forallb]; now rewrite Hnil).
    pose proof (trim_idem p) as Hid. rewrite E in Hid.
    change (t0 ++ LF :: rest) with (t0 ++ (LF :: rest)) in Hid.
    rewrite trim_app_space_r in Hid by exact Hws.
    apply Hfirst. apply (trim_within t0). rewrite Hid.
    apply in_or_app. right. now left. }
  unfold extractScene. rewrite E.
  replace (length (t0 ++ LF :: rest) =? 0) with false
    by (symmetry; rewrite length_app; simpl; apply Nat.eqb_neq; lia).
  rewrite splitOn_app by exact Hfirst.
  cbn [index nth_error bind skipn]. rewrite join_splitOn.
  apply length_pos_iff in Ht0. apply length_pos_iff in Hrest.
  now rewrite Ht0, Hrest.
Qed.

(** X16: on a text of 50 units or more that holds no [SCENE n:]
    marker the line scan of the fallback strategy plays no part,
    whatever headers without colon the text has.  If the trimmed text
    has several lines, the story is its first line as title of scene 1,
    the rest as content, and three continuation scenes; if it has one
    line, the story is the one of the equal-chunk split. *)
Theorem text_without_marker_is_one_scene_or_chunks
  (storyText : jsstring) (characterDNA : CharacterDNA)
  (Hlen : 50 <= length storyText) (Hfree : markerFree storyText) :
  exists st,
    parseStoryIntoScenes storyText characterDNA = Ok st
    /\ ((exists t0 rest,
           trim storyText = t0 ++ [LF] ++ rest
           /\ ~ In LF t0
           /\ fallbackParsed st = false
           /\ scenes st =
              [ parsedScene 1 (trim t0) (trim rest) characterDNA;
                paddingScene 2 characterDNA; paddingScene 3 characterDNA;
                paddingScene 4 characterDNA ])
        \/ (~ In LF (trim storyText)
            /\ fallbackParsed st = true
            /\ scenes st =
               chunkScenes characterDNA (splitTextIntoChunks storyText 4))).
Proof.
  destruct (in_dec N.eq_dec LF (trim storyText)) as [Hin|Hno].
  - destruct (extractScene_lines storyText Hin)
      as (t0 & rest & E & Hfirst & Hex).
    assert (Hseg : usableSegments storyText = [(trim t0, trim rest)]).
    { unfold usableSegments. rewrite split_markerFree by exact Hfree.
      cbn [flat_map]. unfold segmentOf. now rewrite Hex. }
    eexists. split.
    { apply parseStoryIntoScenes_primary; [exact Hlen|].
      rewrite Hseg. discriminate. }
    left. exists t0, rest. rewrite Hseg. repeat split; assumption.
  - eexists. split.
    { rewrite parseStoryIntoScenes_fallback;
        [|exact Hlen | now apply usableSegments_one_line].
      now rewrite fallbackParseStory_one_line. }
    right. repeat split. exact Hno.
Qed.

Lemma text_without_marker_is_one_scene_or_chunks_witness :
  exists st,
    parseStoryIntoScenes twoPlainLines mia = Ok st
    /\ map title (scenes st)
       = [ js "First line of the story goes here"; js "Scene 2";
           js "Scene 3"; js "Scene 4" ].
Proof.
  destruct (text_without_marker_is_one_scene_or_chunks twoPlainLines mia)
    as (st & Hst & _).
  - vm_compute. lia.
  - apply markerFreeb_sound. reflexivity.
  - exists st. split; [exact Hst|].
    assert (E : parseStoryIntoScenes twoPlainLines mia
                = Ok (match parseStoryIntoScenes twoPlainLines mia with
                      | Ok s => s
                      | Throw _ => createEmergencyFallback mia []
                      end))
      by (vm_compute; reflexivity).
    rewrite E in Hst. apply Ok_inj in Hst. subst st.
    vm_compute. reflexivity.
Defined.

(** ** What a segment gives *)

(** X17: the body of the primary loop reads a segment through its
    trimmed form only.  A segment whose trimmed form has several lines
    gives a scene: its first line, trimmed, is the title and the rest,
    trimmed, is the content, and neither is empty.  A segment whose
    trimmed form is empty or has one line gives no scene: a marker
    followed by a title without body, or by a single paragraph without
    title line, is passed over. *)
Theorem segment_gives_scene_iff_several_lines (rawPart : jsstring) :
  (In LF (trim rawPart) ->
   exists t0 rest,
     trim rawPart = t0 ++ [LF] ++ rest
     /\ ~ In LF t0
     /\ trim t0 <> [] /\ trim rest <> []
     /\ extractScene rawPart = Ok (Some (trim t0, trim rest)))
  /\ (~ In LF (trim rawPart) -> extractScene rawPart = Ok None).
Proof.
  split.
  - intros Hin. destruct (extractScene_lines rawPart Hin)
      as (t0 & rest & E & Hfirst & Hex).
    exists t0, rest. repeat split; try assumption.
    + apply (segmentOf_nonempty rawPart (trim t0) (trim rest)).
      unfold segmentOf. rewrite Hex. now left.
    + apply (segmentOf_nonempty rawPart (trim t0) (trim rest)).
      unfold segmentOf. rewrite Hex. now left.
  - apply extractScene_one_line.
Qed.

Lemma segment_gives_scene_iff_several_lines_witness :
  extractScene (js " Only a title, and nothing under it  ") = Ok None.
Proof.
  apply (proj2 (segment_gives_scene_iff_several_lines
                  (js " Only a title, and nothing under it  "))).
  apply not_in_LF. reflexivity.
Defined.
